(** * HeyTeaAutoDrawer: configuration, logging and GUI control flow

    A shallow embedding of [config/config.py], [utils/print_utils.py] and the
    control flow of [gui.py], with the properties of the design document
    stated and proved over it. *)

From Stdlib Require Import ZArith QArith Qcanon.
From stdpp Require Import numbers gmap strings list fin_maps pretty.

Local Open Scope Z_scope.

(** ** Python values stored in the configuration *)

(** A decimal literal [m * 10^e], the way the float literals of
    [config.py] are written ([1.5] is [PFloat 15 (-1)]). *)
Inductive pyval : Type :=
  | PInt (n : Z)
  | PBool (b : bool)
  | PFloat (m e : Z)
  | PStr (s : string)
  | PNone
  | PObject (repr : string).   (* any other object, named by its repr *)

#[global] Instance pyval_eq_dec : EqDecision pyval.
Proof. solve_decision. Defined.

(** The scalar values: numbers, truth values and strings. *)
Definition is_scalar (v : pyval) : bool :=
  match v with
  | PInt _ | PBool _ | PFloat _ _ | PStr _ => true
  | PNone | PObject _ => false
  end.

(** A Python [dict] with string keys; a configuration is a dict of dicts. *)
Abbreviation section_dict := (gmap string pyval).
Abbreviation config := (gmap string (gmap string pyval)).

(** [cfg[section][key]], as an option instead of a [KeyError]. *)
Definition get_option (cfg : config) (section key : string) : option pyval :=
  cfg !! section ≫= λ params, params !! key.

(** The escapes ["\n"] and ["\r"] of the Python source. *)
Definition LF : string := String (Ascii.ascii_of_nat 10) "".
Definition CR : string := String (Ascii.ascii_of_nat 13) "".

(** [str(i)] for an [int]. *)
Definition str_int (i : Z) : string := pretty i.

(** ** Exceptions and the state-and-exception monad *)

(** Python exceptions, split the way [except Exception] splits them:
    instances of [Exception], and the [BaseException]s that are not
    ([SystemExit], [KeyboardInterrupt], [GeneratorExit]). *)
Inductive exn : Type :=
  | Exception (msg : string)
  | BaseException (msg : string).

Definition isinstance_Exception (e : exn) : bool :=
  match e with Exception _ => true | BaseException _ => false end.

(** [str(e)] *)
Definition str_exn (e : exn) : string :=
  match e with Exception msg => msg | BaseException msg => msg end.

Inductive result (A : Type) : Type :=
  | Return (a : A)
  | Raise (e : exn).
Arguments Return {A} a.
Arguments Raise {A} e.

(** A statement sequence over a mutable state [S] that may raise: the state
    reached when an exception is raised is kept. *)
Definition SE (S A : Type) : Type := S → result A * S.

Section SE.
Context {S : Type}.

Definition ret {A} (a : A) : SE S A := λ s, (Return a, s).

Definition raise {A} (e : exn) : SE S A := λ s, (Raise e, s).

Definition bind {A B} (m : SE S A) (k : A → SE S B) : SE S B :=
  λ s, match m s with
       | (Return a, s') => k a s'
       | (Raise e, s') => (Raise e, s')
       end.

(** [try: body / except Exception as e: handler(e)] *)
Definition try_except_Exception {A} (body : SE S A) (handler : exn → SE S A) : SE S A :=
  λ s, match body s with
       | (Return a, s') => (Return a, s')
       | (Raise e, s') =>
           if isinstance_Exception e then handler e s' else (Raise e, s')
       end.

(** [try: body / finally: final] *)
Definition try_finally {A} (body : SE S A) (final : SE S unit) : SE S A :=
  λ s, match body s with
       | (r, s') =>
           match final s' with
           | (Return _, s'') => (r, s'')
           | (Raise e, s'') => (Raise e, s'')
           end
       end.

Definition pass : SE S unit := ret tt.

Definition get : SE S S := λ s, (Return s, s).
Definition modify (f : S → S) : SE S unit := λ s, (Return tt, f s).

(** [for x in xs: body(x)] *)
Fixpoint for_each {A} (xs : list A) (body : A → SE S unit) : SE S unit :=
  match xs with
  | [] => ret tt
  | x :: rest => bind (body x) (λ _, for_each rest body)
  end.
End SE.

#[global] Instance SE_ret {S} : MRet (SE S) := λ A, ret.
#[global] Instance SE_bind {S} : MBind (SE S) := λ A B k m, bind m k.

(** ** config/config.py *)

Module Config.

Definition draw_config : section_dict :=
  list_to_map
    [ ("DELAY", PInt 5);
      ("ENABLE_JITTER", PBool true);
      ("JITTER_AMOUNT", PFloat 15 (-1));
      ("JITTER_FREQUENCY", PInt 2);
      ("SPEED_FACTOR", PFloat 1 (-1)) ].

Definition image_config : section_dict :=
  list_to_map
    [ ("BRUSH_STEP", PInt 3);
      ("CANNY_THRESH1", PInt 50);
      ("CANNY_THRESH2", PInt 150);
      ("EPSILON_FACTOR", PFloat 1 (-4));
      ("H_IMG", PInt 1280);
      ("THRESHOLD_VALUE", PInt 131);
      ("W_IMG", PInt 960) ].

Definition screen_config : section_dict :=
  list_to_map
    [ ("H", PInt 910); ("W", PInt 655); ("X_A", PInt 1890); ("Y_A", PInt 365) ].

Definition CONFIG : config :=
  list_to_map
    [ ("draw_config", draw_config);
      ("image_config", image_config);
      ("screen_config", screen_config) ].

End Config.

(** ** utils/print_utils.py *)

Module PrintUtils.

(** The calls a logging operation makes to its two sinks, in order. *)
Inductive sink_call : Type :=
  | CallPrint (text end_ : string)
  | CallGui (text : string).

Section WithGui.
(** [G] is the state a GUI callback acts on. *)
Context {G : Type}.

(** A callback receives the message; it may change the GUI state and may
    raise. *)
Definition callback : Type := string → G → G * option exn.

Record world : Type := World {
  stdout : list string;                 (* what the console has received *)
  stdout_raises : string → option exn;  (* the console may reject a write *)
  gui : G;
  _gui_callback : option callback;      (* the module-level global *)
  calls : list sink_call                (* history of sink calls *)
}.

Definition M (A : Type) : Type := SE world A.

(** [print(text, end=end, flush=True)] *)
Definition print (text end_ : string) : M unit :=
  λ w,
    let called := calls w ++ [CallPrint text end_] in
    match stdout_raises w (text +:+ end_) with
    | Some e =>
        (Raise e, World (stdout w) (stdout_raises w) (gui w) (_gui_callback w) called)
    | None =>
        (Return tt,
         World (stdout w ++ [text +:+ end_]) (stdout_raises w) (gui w)
               (_gui_callback w) called)
    end.

(** [cb(text)] for a callback object [cb]. *)
Definition call_callback (cb : callback) (text : string) : M unit :=
  λ w,
    let '(g', raised) := cb text (gui w) in
    let w' := World (stdout w) (stdout_raises w) g' (_gui_callback w)
                    (calls w ++ [CallGui text]) in
    match raised with
    | Some e => (Raise e, w')
    | None => (Return tt, w')
    end.

Definition register_gui_logger (func : option callback) : M unit :=
  λ w, (Return tt, World (stdout w) (stdout_raises w) (gui w) func (calls w)).

Definition _emit (text : string) (end_ : string) : M unit :=
  try_except_Exception (print text end_) (λ _, pass) ;;
  w ← get;
  match _gui_callback w with
  | Some cb => try_except_Exception (call_callback cb text) (λ _, pass)
  | None => ret tt
  end.

(** [c * n] for a one-character string [c]. *)
Definition str_repeat (c : string) (n : nat) : string :=
  foldr String.append "" (replicate n c).

(** [range(seconds, 0, -1)] *)
Definition range_down_to_1 (seconds : Z) : list Z :=
  (λ i : nat, seconds - Z.of_nat i) <$> seq 0 (Z.to_nat seconds).

(** [time.sleep(1)]: no effect on either sink. *)
Definition sleep : M unit := ret tt.

Definition print_title (text : string) : M unit :=
  _emit (LF +:+ str_repeat "=" 60) LF ;;
  _emit text LF ;;
  _emit (str_repeat "=" 60) LF.

Definition print_info (text : string) : M unit :=
  _emit ("ℹ️  " +:+ text) LF.

Definition print_success (text : string) : M unit :=
  _emit ("✅ " +:+ text) LF.

Definition print_warning (text : string) : M unit :=
  _emit ("⚠️  " +:+ text) LF.

Definition print_error (text : string) : M unit :=
  _emit ("❌ " +:+ text) LF.

Definition print_step (text : string) : M unit :=
  _emit ("→ " +:+ text) LF.

Definition print_progress (current total : Z) (text : string) : M unit :=
  if bool_decide (text ≠ "") then
    _emit ("进度: " +:+ str_int current +:+ "/" +:+ str_int total +:+ " " +:+ text) LF
  else
    _emit ("进度: " +:+ str_int current +:+ "/" +:+ str_int total) LF.

Definition print_section (text : string) : M unit :=
  _emit (str_repeat "-" 60) LF ;;
  _emit text LF.

Definition print_countdown (seconds : Z) : M unit :=
  for_each (range_down_to_1 seconds) (λ i,
    _emit ("  " +:+ str_int i +:+ "...") CR ;;
    sleep) ;;
  _emit "  开始！  " LF.

(** The public print API, as one type of requests. *)
Inductive print_request : Type :=
  | Title (text : string)
  | Info (text : string)
  | Success (text : string)
  | Warning (text : string)
  | Error (text : string)
  | Step (text : string)
  | Progress (current total : Z) (text : string)
  | Section_ (text : string)
  | Countdown (seconds : Z).

Definition run_print (r : print_request) : M unit :=
  match r with
  | Title t => print_title t
  | Info t => print_info t
  | Success t => print_success t
  | Warning t => print_warning t
  | Error t => print_error t
  | Step t => print_step t
  | Progress c n t => print_progress c n t
  | Section_ t => print_section t
  | Countdown n => print_countdown n
  end.

(** Projections of a call history onto each sink. *)
Definition printed_texts (cs : list sink_call) : list string :=
  omap (λ c, match c with CallPrint t _ => Some t | CallGui _ => None end) cs.

Definition forwarded_texts (cs : list sink_call) : list string :=
  omap (λ c, match c with CallGui t => Some t | CallPrint _ _ => None end) cs.

(** *** What a sequence of emitted messages does to the world *)

(** Neither sink raises anything but instances of [Exception]. *)
Definition benign (w : world) : Prop :=
  (∀ chunk e, stdout_raises w chunk = Some e → isinstance_Exception e = true)
  ∧ (∀ cb text g e, _gui_callback w = Some cb → (cb text g).2 = Some e →
       isinstance_Exception e = true).

(** The sink calls that emitting [msgs] (pairs of text and line end)
    amounts to, with or without a registered callback. *)
Definition emitted (registered : bool) (msgs : list (string * string)) : list sink_call :=
  '(text, end_) ← msgs;
  CallPrint text end_ :: (if registered then [CallGui text] else []).

(** The writes that the console accepts. *)
Definition accepted (raises : string → option exn) (msgs : list (string * string))
  : list string :=
  '(text, end_) ← msgs;
  match raises (text +:+ end_) with None => [text +:+ end_] | Some _ => [] end.

(** The GUI state after the callback has received [texts] in order. *)
Definition deliver (cb : option callback) (g : G) (texts : list string) : G :=
  match cb with
  | Some f => foldl (λ g text, (f text g).1) g texts
  | None => g
  end.

Definition after_emits (msgs : list (string * string)) (w : world) : world :=
  World (stdout w ++ accepted (stdout_raises w) msgs)
        (stdout_raises w)
        (deliver (_gui_callback w) (gui w) msgs.*1)
        (_gui_callback w)
        (calls w ++ emitted (bool_decide (is_Some (_gui_callback w))) msgs).

Definition emits (m : M unit) (msgs : list (string * string)) : Prop :=
  ∀ w, benign w → m w = (Return tt, after_emits msgs w).

(** Without a callback, nothing reaches the GUI, whatever the console does. *)
Definition quiet (m : M unit) : Prop :=
  ∀ w, _gui_callback w = None →
    _gui_callback (m w).2 = None
    ∧ gui (m w).2 = gui w
    ∧ forwarded_texts (calls (m w).2) = forwarded_texts (calls w).

(** The messages of each request of the print API. *)
Definition messages (r : print_request) : list (string * string) :=
  match r with
  | Title t => [(LF +:+ str_repeat "=" 60, LF); (t, LF); (str_repeat "=" 60, LF)]
  | Info t => [("ℹ️  " +:+ t, LF)]
  | Success t => [("✅ " +:+ t, LF)]
  | Warning t => [("⚠️  " +:+ t, LF)]
  | Error t => [("❌ " +:+ t, LF)]
  | Step t => [("→ " +:+ t, LF)]
  | Progress c n t =>
      if bool_decide (t ≠ "")
      then [("进度: " +:+ str_int c +:+ "/" +:+ str_int n +:+ " " +:+ t, LF)]
      else [("进度: " +:+ str_int c +:+ "/" +:+ str_int n, LF)]
  | Section_ t => [(str_repeat "-" 60, LF); (t, LF)]
  | Countdown n =>
      ((λ i, ("  " +:+ str_int i +:+ "...", CR)) <$> range_down_to_1 n)
      ++ [("  开始！  ", LF)]
  end.
End WithGui.
Arguments world : clear implicits.
Arguments callback : clear implicits.
Arguments M : clear implicits.

End PrintUtils.

(** ** utils/config_utils.py *)

Module ConfigUtils.

(** Modelled from the spec: the options that a reset keeps, "image-dimension/
    threshold and screen-rectangle keys": [H_IMG], [W_IMG], [THRESHOLD_VALUE]
    and the whole of [screen_config]. *)
Definition preserved (section key : string) : bool :=
  bool_decide (section = "screen_config")
  || (bool_decide (section = "image_config")
      && bool_decide (key ∈ ["H_IMG"; "W_IMG"; "THRESHOLD_VALUE"])).

(** Modelled from the spec: one section after a reset, the kept options as
    stored and the others as in the defaults. *)
Definition reset_section (section : string) (defaults file : section_dict) : section_dict :=
  filter (λ kv, preserved section kv.1 = true) file
  ∪ filter (λ kv, preserved section kv.1 = false) defaults.

(** Modelled from the spec: [reset_config_file] of utils/config_utils.py is
    not among the sources. The design document gives it as
    [reset_config_file() -> void], which "resets all but
    image-dimension/threshold and screen-rectangle keys to defaults"; the
    default values themselves are the parameter [defaults]. The function maps
    the stored configuration to the one stored afterwards. *)
Definition reset_config_file (defaults file : config) : config :=
  list_to_map
    ((λ section, (section, reset_section section (defaults !!! section) (file !!! section)))
       <$> ["draw_config"; "image_config"; "screen_config"]).

(** Modelled from the spec: [load_config() -> Configuration] returns the
    stored configuration. *)
Definition load_config (file : config) : config := file.

(** Modelled from the spec: [save_config(Configuration) -> void] replaces the
    stored configuration. *)
Definition save_config (cfg : config) (file : config) : config := cfg.

End ConfigUtils.

(** ** gui.py *)

Module Gui.

(** The [state] option of a Tk widget. *)
Inductive widget_state : Type := NORMAL | DISABLED.

#[global] Instance widget_state_eq_dec : EqDecision widget_state.
Proof. solve_decision. Defined.

(** The attributes of the [HeyTeaGUI] object that its handlers read and
    write. Widget layout and rendering are left out; Tk calls on existing
    widgets are taken to succeed. *)
Record HeyTeaGUI : Type := GUI {
  config_data : config;
  image_path : option string;       (* [None] until a file is opened *)
  algorithm_var : string;
  start_btn : widget_state;         (* the state of the start button *)
  log_text : list string;           (* what was inserted in the log widget *)
  after_queue : list string         (* [append_log] calls scheduled with [after] *)
}.

(** The object together with the configuration file it loads and saves. *)
Record process : Type := Process {
  self : HeyTeaGUI;
  config_file : config
}.

Definition set_self (f : HeyTeaGUI → HeyTeaGUI) (p : process) : process :=
  Process (f (self p)) (config_file p).

Definition set_config_data (cfg : config) (g : HeyTeaGUI) : HeyTeaGUI :=
  GUI cfg (image_path g) (algorithm_var g) (start_btn g) (log_text g) (after_queue g).

Definition set_image_path (path : option string) (g : HeyTeaGUI) : HeyTeaGUI :=
  GUI (config_data g) path (algorithm_var g) (start_btn g) (log_text g) (after_queue g).

Definition set_algorithm_var (a : string) (g : HeyTeaGUI) : HeyTeaGUI :=
  GUI (config_data g) (image_path g) a (start_btn g) (log_text g) (after_queue g).

Definition start_btn_config (st : widget_state) (g : HeyTeaGUI) : HeyTeaGUI :=
  GUI (config_data g) (image_path g) (algorithm_var g) st (log_text g) (after_queue g).

Definition log_text_insert (line : string) (g : HeyTeaGUI) : HeyTeaGUI :=
  GUI (config_data g) (image_path g) (algorithm_var g) (start_btn g)
      (log_text g ++ [line]) (after_queue g).

Definition set_after_queue (q : list string) (g : HeyTeaGUI) : HeyTeaGUI :=
  GUI (config_data g) (image_path g) (algorithm_var g) (start_btn g) (log_text g) q.

(** What a handler asks of the toolkit and of [threading]. *)
Inductive target : Type :=
  | run_draw_target (algo : string)   (* the closure [run_draw], with its [algo] *)
  | do_capture_target
  | do_reset_target.

Inductive request : Type :=
  | showwarning (title message : string)
  | showerror (title message : string)
  | Thread_start (t : target).

(** [__init__]: the configuration is loaded, no image is selected, the
    algorithm is ["边缘"], the start button is enabled. *)
Definition __init__ (file : config) : process :=
  Process (GUI (ConfigUtils.load_config file) None "边缘" NORMAL [] []) file.

Definition append_log (text : string) : SE process unit :=
  modify (set_self (log_text_insert (text +:+ LF))).

(** The callback that [_build_ui] registers with [print_utils]: it schedules
    [append_log(msg)] on the main thread. *)
Definition _gui_log_proxy : PrintUtils.callback HeyTeaGUI :=
  λ msg g, (set_after_queue (after_queue g ++ [msg]) g, None).

Definition _build_ui : PrintUtils.M HeyTeaGUI unit :=
  try_except_Exception
    (PrintUtils.register_gui_logger (Some _gui_log_proxy))
    (λ _, pass).

(** The main loop runs the oldest scheduled [append_log]. *)
Definition run_after : SE process unit :=
  p ← get;
  match after_queue (self p) with
  | [] => ret tt
  | msg :: rest => modify (set_self (set_after_queue rest)) ;; append_log msg
  end.

(** Truth value of [self.image_path]: [None] and [""] are false. *)
Definition truthy (path : option string) : bool :=
  match path with
  | None => false
  | Some s => bool_decide (s ≠ "")
  end.

(** [open_file]: [file_path] is what the file dialog returned, [opened] the
    outcome of [Image.open] and [drawn] the outcome of
    [_draw_image_on_canvas], the last statement of the [try] block. *)
Definition open_file (file_path : string) (opened drawn : result unit)
  : SE process (list request) :=
  if bool_decide (file_path = "") then ret []
  else
    try_except_Exception
      ((λ p, (opened, p)) ;;
       modify (set_self (set_image_path (Some file_path))) ;;
       append_log ("已打开图片: " +:+ file_path) ;;
       (λ p, (drawn, p)) ;;
       ret [])
      (λ e, ret [showerror "打开失败" ("无法打开图片: " +:+ str_exn e)]).

Definition start_drawing : SE process (list request) :=
  p ← get;
  if negb (truthy (image_path (self p))) then
    ret [showwarning "未选择图片" "请先通过 文件 -> 打开文件 选择图片。"]
  else
    let algo := algorithm_var (self p) in
    append_log ("开始绘画 - 算法: " +:+ algo) ;;
    modify (set_self (start_btn_config DISABLED)) ;;
    ret [Thread_start (run_draw_target algo)].

(** The two drawers of [core]. *)
Inductive drawer : Type := AutoDrawerCanny | AutoDrawerScan.

Definition choose_drawer (algo : string) : drawer :=
  if bool_decide (algo = "边缘") then AutoDrawerCanny else AutoDrawerScan.

(** [run_draw], the body of the worker thread. The drawers are not among the
    sources: [drawer_run d cfg path] is the outcome of constructing drawer [d]
    on [cfg] and running it on [path]. *)
Definition run_draw (algo : string)
    (drawer_run : drawer → config → option string → result unit)
  : SE process unit :=
  try_finally
    (try_except_Exception
       (p ← get;
        (λ p', (drawer_run (choose_drawer algo) (config_data (self p))
                           (image_path (self p)), p')) ;;
        append_log "绘画完成")
       (λ e, append_log ("绘画出错: " +:+ str_exn e)))
    (modify (set_self (start_btn_config NORMAL))).

Definition refresh_config : SE process unit :=
  modify (λ p, set_self (set_config_data (ConfigUtils.load_config (config_file p))) p) ;;
  append_log "配置已刷新".

(** [self.config_data[section][key] = val]; a missing section is a
    [KeyError]. *)
Definition config_data_setitem (section key : string) (val : pyval) : SE process unit :=
  p ← get;
  match config_data (self p) !! section with
  | Some params =>
      modify (set_self (set_config_data
                (<[section := <[key := val]> params]> (config_data (self p)))))
  | None => raise (Exception section)
  end.

Definition save_config : SE process unit :=
  modify (λ p, Process (self p) (ConfigUtils.save_config (config_data (self p)) (config_file p))).

(** The [entries] of the configuration editor at the time of saving: for
    each option shown, the text its widget holds. *)
Abbreviation entries := (list ((string * string) * string)).

(** The editor opened by [open_modify_config] shows one widget per option of
    [config_data]; [typed section key] is the text the widget holds when the
    user saves. *)
Definition open_modify_config (cfg : config) (typed : string → string → string) : entries :=
  '(section, params) ← map_to_list cfg;
  '(k, _) ← map_to_list params;
  [((section, k), typed section k)].

(** Python's [eval] on the text [raw] of a widget, called inside the loop
    of [save_and_close]: the names in scope are the loop variables [section]
    and [key] and what the closure reaches through [self], so the outcome may
    depend on them. It is taken to leave the state as it is. *)
Definition evaluator : Type := process → string → string → string → result pyval.

Section Eval.
Variable eval : evaluator.

(** The loop of [save_and_close]. *)
Definition save_entries (es : entries) : SE process unit :=
  for_each es (λ '((section, key), raw),
    val ← try_except_Exception (λ p, (eval p section key raw, p))
                               (λ _, ret (PStr raw));
    config_data_setitem section key val).

Definition save_and_close (es : entries) : SE process unit :=
  save_entries es ;;
  save_config ;;
  append_log "配置已保存".

(** The value that a text stands for: what [eval] returns, or the text
    itself when [eval] raises. *)
Definition typed_value (p : process) (section key raw : string) : pyval :=
  match eval p section key raw with
  | Return v => v
  | Raise _ => PStr raw
  end.

(** The process after [config_data[section][key] = typed_value ...]. *)
Definition store_entry (p : process) (entry : (string * string) * string) : process :=
  let '((section, key), raw) := entry in
  let cfg := config_data (self p) in
  set_self (set_config_data
              (<[section := <[key := typed_value p section key raw]> (cfg !!! section)]> cfg))
           p.

(** Every entry names a section of the configuration, and no text evaluates
    to anything raised but an instance of [Exception]. *)
Definition savable (p : process) (es : entries) : Prop :=
  (∀ section key raw, ((section, key), raw) ∈ es →
     is_Some (config_data (self p) !! section))
  ∧ (∀ p' section key raw e, ((section, key), raw) ∈ es →
       eval p' section key raw = Raise e → isinstance_Exception e = true).
End Eval.

(** What [eval] makes of a few texts, for running the editor on examples;
    any other text is taken for an undefined name. *)
Definition eval_on_samples : evaluator := λ p section key raw,
  if bool_decide (raw = "True") then Return (PBool true)
  else if bool_decide (raw = "False") then Return (PBool false)
  else if bool_decide (raw = "2 * 3") then Return (PInt 6)
  else if bool_decide (raw = "key") then Return (PStr key)
  else if bool_decide (raw = "exit()") then Raise (BaseException "SystemExit")
  else Raise (Exception "NameError").

(** [do_capture], the body of the thread started by [reselect_board];
    [captured] is the outcome of [capture_screen_region]. *)
Definition do_capture (captured : result (Z * Z * Z * Z)) : SE process unit :=
  try_except_Exception
    ('(X_A, Y_A, W, H) ← (λ p, (captured, p));
     p ← get;
     let cfg := config_data (self p) in
     let cfg := if bool_decide (cfg !! "screen_config" = None)
                then <["screen_config" := ∅]> cfg else cfg in
     let screen := <["H" := PInt H]> (<["W" := PInt W]> (<["Y_A" := PInt Y_A]>
                     (<["X_A" := PInt X_A]> (cfg !!! "screen_config")))) in
     modify (set_self (set_config_data (<["screen_config" := screen]> cfg))) ;;
     save_config ;;
     append_log ("画板坐标已更新: (" +:+ str_int X_A +:+ ", " +:+ str_int Y_A
                 +:+ "), 尺寸 " +:+ str_int W +:+ "×" +:+ str_int H))
    (λ e, append_log ("重选画板失败: " +:+ str_exn e)).

Definition reselect_board : SE process (list request) :=
  append_log "开始重新选择画板区域，请根据提示操作..." ;;
  ret [Thread_start do_capture_target].

(** [do_reset], the body of the thread started by [reset_config_action]. *)
Definition do_reset (defaults : config) : SE process unit :=
  try_except_Exception
    (modify (λ p, Process (self p) (ConfigUtils.reset_config_file defaults (config_file p))) ;;
     modify (λ p, set_self (set_config_data (ConfigUtils.load_config (config_file p))) p) ;;
     append_log "配置已重置为默认（保留指定项）并已刷新")
    (λ e, append_log ("重置配置失败: " +:+ str_exn e)).

(** [reset_config_action]; [confirmed] is the answer to the dialog. *)
Definition reset_config_action (confirmed : bool) : SE process (list request) :=
  if negb confirmed then ret []
  else ret [Thread_start do_reset_target].

(** *** The threads of the process *)

(** [run_draw] takes time inside the drawer, and the main loop handles
    events meanwhile. Its body is cut at the call of the drawer: what follows
    the return of [drawer.run] inside the [try], and the [finally] clause. *)
Definition run_draw_leave (outcome : result unit) : SE process unit :=
  try_except_Exception
    ((λ p, (outcome, p)) ;; append_log "绘画完成")
    (λ e, append_log ("绘画出错: " +:+ str_exn e)).

Definition run_draw_finally : SE process unit :=
  modify (set_self (start_btn_config NORMAL)).

(** Where a thread started by the GUI stands. *)
Inductive thread_pc : Type :=
  | draw_started (algo : string)
  | draw_running (d : drawer) (cfg : config) (path : option string)
  | draw_finally
  | capture_started
  | reset_started.

Definition is_draw (pc : thread_pc) : bool :=
  match pc with
  | draw_started _ | draw_running _ _ _ | draw_finally => true
  | capture_started | reset_started => false
  end.

(** The thread that runs the Tk main loop and every handler. *)
Definition MainThread : nat := 0%nat.

Record system : Type := System {
  proc : process;
  threads : gmap nat thread_pc;   (* the started threads that have not ended *)
  next_ident : nat                (* identifier of the next thread *)
}.

Definition initial (file : config) : system :=
  System (__init__ file) ∅ 1%nat.

Definition pc_of_target (t : target) : thread_pc :=
  match t with
  | run_draw_target algo => draw_started algo
  | do_capture_target => capture_started
  | do_reset_target => reset_started
  end.

(** [threading.Thread(target=t, daemon=True).start()] for each request. *)
Fixpoint start_threads (rs : list request) (ths : gmap nat thread_pc) (next : nat)
  : gmap nat thread_pc * nat :=
  match rs with
  | [] => (ths, next)
  | Thread_start t :: rest => start_threads rest (<[next := pc_of_target t]> ths) (S next)
  | _ :: rest => start_threads rest ths next
  end.

(** What happens in the process, one atomic piece at a time. *)
Inductive event : Type :=
  | ui_open_file (file_path : string) (opened drawn : result unit)
  | ui_select_algorithm (algo : string)
  | ui_click_start
  | ui_refresh
  | ui_save_config (es : entries)
  | ui_reset (confirmed : bool)
  | ui_reselect
  | ui_after
  | draw_begin (t : nat)
  | draw_end (t : nat) (outcome : result unit)
  | draw_exit (t : nat)
  | capture_run (t : nat) (captured : result (Z * Z * Z * Z))
  | reset_run (t : nat).

(** The thread an event runs on. *)
Definition thread_of (e : event) : nat :=
  match e with
  | draw_begin t | draw_end t _ | draw_exit t | capture_run t _ | reset_run t => t
  | _ => MainThread
  end.

Section Step.
Variable eval : evaluator.
Variable defaults : config.

(** A handler runs on the main thread; the threads it asks for are
    started. An exception that leaves a handler is reported by Tk and the
    main loop goes on. *)
Definition handle (h : SE process (list request)) (s : system) : system :=
  match h (proc s) with
  | (Return rs, p') =>
      let '(ths, next) := start_threads rs (threads s) (next_ident s) in
      System p' ths next
  | (Raise _, p') => System p' (threads s) (next_ident s)
  end.

Definition in_thread (t : nat) (body : SE process unit) (pc' : option thread_pc)
    (s : system) : system :=
  System (body (proc s)).2
         (match pc' with Some pc => <[t := pc]> (threads s) | None => delete t (threads s) end)
         (next_ident s).

(** [step e s] is the state after [e], or [None] when [e] cannot happen in
    [s]. A button whose state is [DISABLED] does not call its command. *)
Definition step (e : event) (s : system) : option system :=
  match e with
  | ui_open_file file_path opened drawn =>
      Some (handle (open_file file_path opened drawn) s)
  | ui_select_algorithm algo =>
      if bool_decide (algo ∈ ["边缘"; "扫描线"])
      then Some (System (set_self (set_algorithm_var algo) (proc s)) (threads s) (next_ident s))
      else None
  | ui_click_start =>
      if bool_decide (start_btn (self (proc s)) = NORMAL)
      then Some (handle start_drawing s)
      else None
  | ui_refresh => Some (handle (refresh_config ;; ret []) s)
  | ui_save_config es => Some (handle (save_and_close eval es ;; ret []) s)
  | ui_reset confirmed => Some (handle (reset_config_action confirmed) s)
  | ui_reselect => Some (handle reselect_board s)
  | ui_after => Some (handle (run_after ;; ret []) s)
  | draw_begin t =>
      match threads s !! t with
      | Some (draw_started algo) =>
          let g := self (proc s) in
          Some (in_thread t (ret tt)
                  (Some (draw_running (choose_drawer algo) (config_data g) (image_path g))) s)
      | _ => None
      end
  | draw_end t outcome =>
      match threads s !! t with
      | Some (draw_running _ _ _) => Some (in_thread t (run_draw_leave outcome) (Some draw_finally) s)
      | _ => None
      end
  | draw_exit t =>
      match threads s !! t with
      | Some draw_finally => Some (in_thread t run_draw_finally None s)
      | _ => None
      end
  | capture_run t captured =>
      match threads s !! t with
      | Some capture_started => Some (in_thread t (do_capture captured) None s)
      | _ => None
      end
  | reset_run t =>
      match threads s !! t with
      | Some reset_started => Some (in_thread t (do_reset defaults) None s)
      | _ => None
      end
  end.

Fixpoint run (es : list event) (s : system) : option system :=
  match es with
  | [] => Some s
  | e :: rest => step e s ≫= run rest
  end.

(** The states the process can be in, from a start with configuration
    file [file]. *)
Inductive reachable (file : config) : system → Prop :=
  | reachable_initial : reachable file (initial file)
  | reachable_step s e s' :
      reachable file s → step e s = Some s' → reachable file s'.
End Step.

(** An example session: a picture is opened, the start button is clicked,
    the worker enters the drawer. *)
Definition sample_session : list event :=
  [ ui_open_file "pic/cup.png" (Return tt) (Return tt); ui_click_start; draw_begin 1 ].

(** The state after the events [es] from [s], or [s] itself when they cannot
    all happen. *)
Definition after (eval : evaluator) (defaults : config)
    (es : list event) (s : system) : system :=
  default s (run eval defaults es s).

(** [drawing], as a check that runs. *)
Definition drawingb (s : system) (t : nat) : bool :=
  match threads s !! t with
  | Some pc => is_draw pc
  | None => false
  end.

(** A piece of code that leaves the state of the start button alone. *)
Definition keeps_start_btn {A} (m : SE process A) : Prop :=
  ∀ p, start_btn (self (m p).2) = start_btn (self p).

(** The events during which a drawer is at work: its run begins with
    [draw_begin] and ends with [draw_end]. *)
Definition runs_drawer (e : event) : bool :=
  match e with
  | draw_begin _ | draw_end _ _ => true
  | _ => false
  end.

(** The threads of [s] that are drawing runs. *)
Definition drawing (s : system) (t : nat) : Prop :=
  ∃ pc, threads s !! t = Some pc ∧ is_draw pc = true.

(** Thread identifiers are fresh and never that of the main thread; there is
    at most one drawing run; the start button is disabled exactly while there
    is one. *)
Definition one_run (s : system) : Prop :=
  (1 ≤ next_ident s)%nat
  ∧ (∀ t pc, threads s !! t = Some pc → (1 ≤ t < next_ident s)%nat)
  ∧ (∀ t1 t2, drawing s t1 → drawing s t2 → t1 = t2)
  ∧ (start_btn (self (proc s)) = DISABLED ↔ ∃ t, drawing s t).

End Gui.

(** ** The Coordinate Mapper *)

Module CoordMapper.

(** The calibrated rectangle: origin and size, in integer screen units. *)
Record ScreenRectangle : Type := Rect { X_A : Z; Y_A : Z; W : Z; H : Z }.

(** An integer as a rational. *)
Definition of_int (z : Z) : Qc := Qc_of_Z z.

Inductive mapped : Type :=
  | ScreenPoint (screen_x screen_y : Qc)
  | CalibrationError.

(** Modelled from the spec: the mapper belongs to the drawers of [core],
    which are not among the sources. The design document gives it as the
    affine transform [screen_x = X_A + x * (W / W_IMG)],
    [screen_y = Y_A + y * (H / H_IMG)], a pure function that "fails with
    CalibrationError if the Screen Rectangle has zero width or height". The
    arithmetic is the exact arithmetic of the formula, over the rationals. *)
Definition map_point (W_IMG H_IMG : Z) (r : ScreenRectangle) (x y : Qc) : mapped :=
  if bool_decide (W r = 0 ∨ H r = 0) then CalibrationError
  else
    ScreenPoint (of_int (X_A r) + x * (of_int (W r) / of_int W_IMG))%Qc
                (of_int (Y_A r) + y * (of_int (H r) / of_int H_IMG))%Qc.

End CoordMapper.

(** ** What pieces of logging code keep *)

Module PrintLaws.

Section WithGui.
Context {G : Type}.

(** Whatever the sinks do, no instance of [Exception] leaves [m]. *)
Definition never_raises_Exception (m : PrintUtils.M G unit) : Prop :=
  ∀ w e, (m w).1 = Raise e → isinstance_Exception e = false.

(** [m] leaves the registration and the console device alone, and only adds
    to what the console holds and to the history of sink calls. *)
Definition only_appends (m : PrintUtils.M G unit) : Prop :=
  ∀ w, PrintUtils._gui_callback (m w).2 = PrintUtils._gui_callback w
       ∧ PrintUtils.stdout_raises (m w).2 = PrintUtils.stdout_raises w
       ∧ PrintUtils.stdout w `prefix_of` PrintUtils.stdout (m w).2
       ∧ PrintUtils.calls w `prefix_of` PrintUtils.calls (m w).2.
End WithGui.

(** The text of one tick of the countdown. *)
Definition tick (i : Z) : string := "  " +:+ str_int i +:+ "...".

End PrintLaws.

(** ** What the handlers of the GUI keep *)

Module GuiLaws.

(** The main loop runs [n] of the scheduled callbacks, oldest first. *)
Fixpoint mainloop_after (n : nat) : SE Gui.process unit :=
  match n with
  | O => ret tt
  | S n' => Gui.run_after ;; mainloop_after n'
  end.

(** [m] takes the object from a [g] to a [g'] with [R g g'], whether it
    returns or raises. *)
Definition respects (R : relation Gui.HeyTeaGUI) {A} (m : SE Gui.process A) : Prop :=
  ∀ p, R (Gui.self p) (Gui.self (m p).2).

(** [R] is a preorder that holds across a change of the configuration, of
    the log and of the scheduled callbacks. *)
Record tolerates (R : relation Gui.HeyTeaGUI) : Prop := Tolerates {
  tolerates_preorder : PreOrder R;
  tolerates_config_data : ∀ cfg g, R g (Gui.set_config_data cfg g);
  tolerates_log_text : ∀ line g, R g (Gui.log_text_insert line g);
  tolerates_after_queue : ∀ q g, R g (Gui.set_after_queue q g)
}.

(** The two entries of the algorithm menu. *)
Definition algorithms : list string := ["边缘"; "扫描线"].

(** An image has been selected: the path is a non-empty string. *)
Definition image_selected (path : option string) : Prop :=
  ∃ file_path, file_path ≠ "" ∧ path = Some file_path.

(** The path is unset or names a file, never the empty string. *)
Definition path_sound (path : option string) : Prop :=
  path = None ∨ image_selected path.

(** From [g] to [g'] the image path stays sound and a selected image stays
    selected. *)
Definition keeps_image (g g' : Gui.HeyTeaGUI) : Prop :=
  (path_sound (Gui.image_path g) → path_sound (Gui.image_path g'))
  ∧ (image_selected (Gui.image_path g) → image_selected (Gui.image_path g')).

(** From [g] to [g'] the selected algorithm stays an entry of the menu. *)
Definition keeps_algorithm (g g' : Gui.HeyTeaGUI) : Prop :=
  Gui.algorithm_var g ∈ algorithms → Gui.algorithm_var g' ∈ algorithms.

(** The image path is sound; while a drawing run exists an image is
    selected; the drawer was handed a selected image. *)
Definition image_ready (s : Gui.system) : Prop :=
  path_sound (Gui.image_path (Gui.self (Gui.proc s)))
  ∧ (∀ t, Gui.drawing s t → image_selected (Gui.image_path (Gui.self (Gui.proc s))))
  ∧ (∀ t d cfg path, Gui.threads s !! t = Some (Gui.draw_running d cfg path) →
       image_selected path).

(** The selected algorithm, and the one each started run was given, is an
    entry of the menu. *)
Definition algorithm_known (s : Gui.system) : Prop :=
  Gui.algorithm_var (Gui.self (Gui.proc s)) ∈ algorithms
  ∧ (∀ t algo, Gui.threads s !! t = Some (Gui.draw_started algo) → algo ∈ algorithms).

(** The log line that [run_draw] leaves for an outcome of the drawer, if
    any. *)
Definition run_draw_log (outcome : result unit) : list string :=
  match outcome with
  | Return _ => ["绘画完成" +:+ LF]
  | Raise e =>
      if isinstance_Exception e then [("绘画出错: " +:+ str_exn e) +:+ LF] else []
  end.

End GuiLaws.

(** ** The widgets of the configuration editor *)

Module Editor.

(** The widget that [open_modify_config] makes for an option: a read-only
    [Combobox] or an [Entry], each holding a text. *)
Inductive widget : Type :=
  | Combobox (values : list string) (current : string)
  | Entry (text : string).

(** [widget.get()] *)
Definition widget_get (w : widget) : string :=
  match w with
  | Combobox _ current => current
  | Entry text => text
  end.

Section Str.
(** [str] of a float and of an object that is neither a number, a truth
    value, a string nor [None]. *)
Variable str_other : pyval → string.

(** [str(v)] *)
Definition str (v : pyval) : string :=
  match v with
  | PInt n => str_int n
  | PBool true => "True"
  | PBool false => "False"
  | PStr s => s
  | PNone => "None"
  | PFloat _ _ | PObject _ => str_other v
  end.

(** The widget for a value [v]: [isinstance(v, bool)] decides. *)
Definition make_widget (v : pyval) : widget :=
  match v with
  | PBool _ => Combobox ["True"; "False"] (str v)
  | _ => Entry (str v)
  end.

(** The entries of an editor opened on [cfg] and saved as it is. *)
Definition untouched_entries (cfg : config) : Gui.entries :=
  Gui.open_modify_config cfg
    (λ section key, widget_get (make_widget (default PNone (get_option cfg section key)))).

(** Every value of [cfg] comes back from the text that shows it: [eval]
    returns it, or raises an instance of [Exception] on the text of a string
    that is the string itself. *)
Definition reads_back (eval : Gui.evaluator) (cfg : config) : Prop :=
  ∀ q section key v, get_option cfg section key = Some v →
    match eval q section key (str v) with
    | Return v' => v' = v
    | Raise e => isinstance_Exception e = true ∧ v = PStr (str v)
    end.
End Str.

(** A small configuration, for running the editor. *)
Definition jitter_only : config :=
  {[ "draw_config" := {[ "ENABLE_JITTER" := PBool true ]} ]}.

End Editor.

(** ** The log widget *)

Module LogWidget.

(** The [Text] widget of the log: its [state] option and what it holds. *)
Record text_widget : Type := TextWidget {
  state : Gui.widget_state;
  content : list string
}.

(** The calls that [append_log] makes on the widget. *)
Inductive tk_call : Type :=
  | configure (st : Gui.widget_state)   (* [configure(state=st)] *)
  | insert_END (chars : string)         (* [insert(tk.END, chars)] *)
  | see_END.                            (* [see(tk.END)] *)

(** What a call does when Tk carries it out; a [Text] widget whose state is
    [DISABLED] ignores an insertion. *)
Definition carry_out (c : tk_call) (w : text_widget) : text_widget :=
  match c with
  | configure st => TextWidget st (content w)
  | insert_END chars =>
      match state w with
      | Gui.NORMAL => TextWidget Gui.NORMAL (content w ++ [chars])
      | Gui.DISABLED => w
      end
  | see_END => w
  end.

(** A call on the widget: [fails c] is what Tk raises on [c], if anything. *)
Definition tk (fails : tk_call → option exn) (c : tk_call) : SE text_widget unit :=
  λ w, match fails c with
       | Some e => (Raise e, w)
       | None => (Return tt, carry_out c w)
       end.

(** [append_log], on the widget itself. *)
Definition append_log (fails : tk_call → option exn) (text : string)
  : SE text_widget unit :=
  try_finally
    (tk fails (configure Gui.NORMAL) ;;
     tk fails (insert_END (text +:+ LF)) ;;
     tk fails see_END)
    (try_except_Exception (tk fails (configure Gui.DISABLED)) (λ _, pass)).

End LogWidget.

(** ** The canvas *)

Module Canvas.

(** A picture, by its size. *)
Record image : Type := Image { width : Z; height : Z }.

(** [create_image(cx, cy, image=img, anchor=tk.CENTER)] *)
Inductive item : Type := image_item (cx cy : Qc) (img : image).

(** The canvas and the attributes of the GUI that drawing on it touches. *)
Record view : Type := View {
  image_pil : option image;   (* the picture opened, [None] before *)
  image_tk : option image;    (* the picture last put on the canvas *)
  items : list item;          (* what the canvas holds *)
  winfo_width : Z;
  winfo_height : Z
}.

Section Thumbnail.
(** [thumbnail pil (w, h)] is the copy of [pil] after
    [thumbnail((w, h), Image.LANCZOS)]. *)
Variable thumbnail : image → Z * Z → image.

Definition _draw_image_on_canvas (v : view) : view :=
  let cleared := View (image_pil v) (image_tk v) [] (winfo_width v) (winfo_height v) in
  match image_pil v with
  | None => cleared
  | Some pil =>
      let canvas_w := winfo_width v in
      let canvas_h := winfo_height v in
      if bool_decide (canvas_w ≤ 1 ∨ canvas_h ≤ 1) then cleared
      else
        let img_copy := thumbnail pil (canvas_w, canvas_h) in
        let cx := (Qc_of_Z canvas_w / 2)%Qc in
        let cy := (Qc_of_Z canvas_h / 2)%Qc in
        View (image_pil v) (Some img_copy) [image_item cx cy img_copy] canvas_w canvas_h
  end.

(** A [<Configure>] event: the canvas has the size [size], and
    [_on_canvas_resize] runs. *)
Definition _on_canvas_resize (v : view) (size : Z * Z) : view :=
  _draw_image_on_canvas (View (image_pil v) (image_tk v) (items v) size.1 size.2).

(** A sequence of [<Configure>] events. *)
Definition resizes (v : view) (sizes : list (Z * Z)) : view :=
  foldl _on_canvas_resize v sizes.
End Thumbnail.

End Canvas.

(** * Properties *)

(** ** The stored configuration *)

(** C1. The stored configuration maps each section to a map from option
    keys to scalar values; it has exactly the sections [draw_config],
    [image_config] and [screen_config], and each section has exactly the
    option keys the design document lists for it: none is missing and there
    is no other. *)
Theorem CONFIG_sections_and_options :
  dom Config.CONFIG = {[ "draw_config"; "image_config"; "screen_config" ]}
  ∧ dom <$> Config.CONFIG !! "draw_config"
    = Some {[ "DELAY"; "ENABLE_JITTER"; "JITTER_AMOUNT"; "JITTER_FREQUENCY";
              "SPEED_FACTOR" ]}
  ∧ dom <$> Config.CONFIG !! "image_config"
    = Some {[ "BRUSH_STEP"; "CANNY_THRESH1"; "CANNY_THRESH2"; "EPSILON_FACTOR";
              "H_IMG"; "W_IMG"; "THRESHOLD_VALUE" ]}
  ∧ dom <$> Config.CONFIG !! "screen_config" = Some {[ "H"; "W"; "X_A"; "Y_A" ]}
  ∧ map_Forall (λ _ params, map_Forall (λ _ v, is_scalar v = true) params)
               Config.CONFIG.
Proof.
  split; [|split; [|split; [|split]]].
  1-4: reflexivity.
  apply (bool_decide_unpack _). vm_compute. exact I.
Qed.

(** ** The state-and-exception monad *)

Lemma bind_Return {S A B} (m : SE S A) (k : A → SE S B) s a s' :
  m s = (Return a, s') → (m ≫= k) s = k a s'.
Proof. unfold mbind, SE_bind, bind. by intros ->. Qed.

Lemma bind_Raise {S A B} (m : SE S A) (k : A → SE S B) s e s' :
  m s = (Raise e, s') → (m ≫= k) s = (Raise e, s').
Proof. unfold mbind, SE_bind, bind. by intros ->. Qed.

(** ** The logging module *)

Section PrintUtilsFacts.
Import PrintUtils.
Context {G : Type}.
Implicit Types (w : world G) (msgs : list (string * string)).

Lemma after_emits_nil w : after_emits [] w = w.
Proof.
  destruct w as [out raises g [f|] cs]; unfold after_emits; simpl;
    by rewrite !app_nil_r.
Qed.

Lemma deliver_app cb (g : G) xs ys :
  deliver cb g (xs ++ ys) = deliver cb (deliver cb g xs) ys.
Proof. destruct cb; simpl; [apply foldl_app | done]. Qed.

Lemma after_emits_app msgs1 msgs2 w :
  after_emits (msgs1 ++ msgs2) w = after_emits msgs2 (after_emits msgs1 w).
Proof.
  unfold after_emits, accepted, emitted; simpl.
  rewrite !bind_app, fmap_app, deliver_app, !app_assoc. done.
Qed.

Lemma benign_after_emits msgs w : benign w → benign (after_emits msgs w).
Proof. done. Qed.

Lemma emits_ret : emits (G:=G) (ret tt) [].
Proof. intros w _. by rewrite after_emits_nil. Qed.

Lemma emits_bind (m1 m2 : M G unit) msgs1 msgs2 :
  emits m1 msgs1 → emits m2 msgs2 → emits (m1 ;; m2) (msgs1 ++ msgs2).
Proof.
  intros H1 H2 w Hw. rewrite (bind_Return _ _ _ _ _ (H1 w Hw)).
  rewrite (H2 _ (benign_after_emits msgs1 w Hw)). by rewrite after_emits_app.
Qed.

Lemma emits__emit text end_ : emits (G:=G) (_emit text end_) [(text, end_)].
Proof.
  intros w [Hout Hcb]. unfold _emit, after_emits, accepted, emitted.
  unfold mbind, SE_bind, bind, try_except_Exception, print, get, pass, ret; simpl.
  destruct w as [out raises g cb cs]; simpl in *.
  destruct (raises (text +:+ end_)) as [e|] eqn:Hr; simpl.
  - rewrite (Hout _ _ Hr); simpl.
    destruct cb as [f|]; simpl.
    + unfold call_callback; simpl.
      destruct (f text g) as [g' [e'|]] eqn:Hf; simpl.
      * assert (isinstance_Exception e' = true) as ->
          by (eapply (Hcb f text g); [done | by rewrite Hf]).
        by rewrite ?app_nil_r, <- ?app_assoc.
      * by rewrite ?app_nil_r, <- ?app_assoc.
    + by rewrite ?app_nil_r, <- ?app_assoc.
  - destruct cb as [f|]; simpl.
    + unfold call_callback; simpl.
      destruct (f text g) as [g' [e'|]] eqn:Hf; simpl.
      * assert (isinstance_Exception e' = true) as ->
          by (eapply (Hcb f text g); [done | by rewrite Hf]).
        by rewrite ?app_nil_r, <- ?app_assoc.
      * by rewrite ?app_nil_r, <- ?app_assoc.
    + by rewrite ?app_nil_r, <- ?app_assoc.
Qed.

Lemma fmap_as_bind {A B} (f : A → B) (xs : list A) :
  f <$> xs = xs ≫= λ x, [f x].
Proof. induction xs as [|x xs IH]; [done|]. by rewrite fmap_cons, bind_cons, IH. Qed.

Lemma emits_for_each {A} (xs : list A) (body : A → M G unit)
    (f : A → list (string * string)) :
  (∀ x, emits (body x) (f x)) → emits (for_each xs body) (xs ≫= f).
Proof.
  intros Hbody. induction xs as [|x xs IH]; simpl.
  - apply emits_ret.
  - change (emits (body x ;; for_each xs body) (f x ++ xs ≫= f)).
    by apply emits_bind.
Qed.

Lemma emits_run_print r : emits (G:=G) (run_print r) (messages r).
Proof.
  destruct r as [t|t|t|t|t|t|c n t|t|n]; simpl;
    try apply emits__emit.
  - apply (emits_bind _ _ [_] [_; _]); [apply emits__emit|].
    apply (emits_bind _ _ [_] [_]); apply emits__emit.
  - unfold print_progress. case_bool_decide; apply emits__emit.
  - apply (emits_bind _ _ [_] [_]); apply emits__emit.
  - unfold print_countdown. apply emits_bind; [|apply emits__emit].
    rewrite fmap_as_bind. apply emits_for_each. intros i.
    apply (emits_bind _ _ [_] []); [apply emits__emit | apply emits_ret].
Qed.

Lemma messages_not_nil r : messages r ≠ [].
Proof.
  destruct r; simpl; try done.
  - by case_bool_decide.
  - by destruct (_ <$> _).
Qed.

Lemma printed_texts_emitted b msgs : printed_texts (emitted b msgs) = msgs.*1.
Proof.
  induction msgs as [|[t e] msgs IH]; [done|].
  unfold emitted in *. rewrite bind_cons. unfold printed_texts in *.
  rewrite omap_app, IH. by destruct b.
Qed.

Lemma forwarded_texts_emitted b msgs :
  forwarded_texts (emitted b msgs) = if b then msgs.*1 else [].
Proof.
  induction msgs as [|[t e] msgs IH]; [by destruct b|].
  unfold emitted in *. rewrite bind_cons. unfold forwarded_texts in *.
  rewrite omap_app, IH. by destruct b.
Qed.

Lemma quiet_ret : quiet (G:=G) (ret tt).
Proof. by intros w Hw. Qed.

Lemma quiet_bind (m1 m2 : M G unit) : quiet m1 → quiet m2 → quiet (m1 ;; m2).
Proof.
  intros H1 H2 w Hw. destruct (H1 w Hw) as (Hc & Hg & Hf).
  unfold mbind, SE_bind, bind. destruct (m1 w) as [[[]|e] w1]; simpl in *; [|done].
  destruct (H2 w1 Hc) as (Hc2 & Hg2 & Hf2). by rewrite Hg2, Hf2.
Qed.

Lemma quiet__emit text end_ : quiet (G:=G) (_emit text end_).
Proof.
  intros [out raises g cb cs] Hw; simpl in Hw; subst cb.
  unfold _emit, mbind, SE_bind, bind, try_except_Exception, print, get, pass, ret; simpl.
  destruct (raises (text +:+ end_)) as [[m|m]|]; simpl;
    unfold forwarded_texts; by rewrite omap_app, app_nil_r.
Qed.

Lemma quiet_for_each {A} (xs : list A) (body : A → M G unit) :
  (∀ x, quiet (body x)) → quiet (for_each xs body).
Proof.
  intros Hbody. induction xs as [|x xs IH]; simpl; [apply quiet_ret|].
  by apply (quiet_bind (body x) (for_each xs body)).
Qed.

Lemma quiet_run_print r : quiet (G:=G) (run_print r).
Proof.
  destruct r as [t|t|t|t|t|t|c n t|t|n]; simpl; try apply quiet__emit.
  - repeat (apply quiet_bind; [apply quiet__emit|]). apply quiet__emit.
  - unfold print_progress. case_bool_decide; apply quiet__emit.
  - apply quiet_bind; apply quiet__emit.
  - apply quiet_bind; [|apply quiet__emit]. apply quiet_for_each. intros i.
    apply quiet_bind; [apply quiet__emit | apply quiet_ret].
Qed.
End PrintUtilsFacts.

(** C2. For every message, line end and world, with or without a registered
    callback: when whatever the console write raises and whatever the
    callback raises on this message is an instance of [Exception], [_emit]
    returns normally. Neither failure reaches the caller. *)
Theorem emit_returns_normally {G} (text end_ : string) (w : PrintUtils.world G) :
  (∀ e, PrintUtils.stdout_raises w (text +:+ end_) = Some e →
        isinstance_Exception e = true) →
  (∀ cb e, PrintUtils._gui_callback w = Some cb →
           (cb text (PrintUtils.gui w)).2 = Some e →
           isinstance_Exception e = true) →
  (PrintUtils._emit text end_ w).1 = Return tt.
Proof.
  intros Hout Hcb. destruct w as [out raises g cb cs]; simpl in *.
  unfold PrintUtils._emit, mbind, SE_bind, bind, try_except_Exception,
    PrintUtils.print, PrintUtils.call_callback, get, pass, ret; simpl.
  destruct (raises (text +:+ end_)) as [e|] eqn:Hr; simpl;
    [rewrite (Hout e eq_refl); simpl|];
    (destruct cb as [f|]; simpl; [|done]);
    specialize (Hcb f); destruct (f text g) as [g' [e'|]]; simpl in *;
    try done; by rewrite (Hcb e').
Qed.

Lemma emit_returns_normally_witness :
  (PrintUtils._emit "hello" LF
     (PrintUtils.World (G:=list string) []
        (λ _, Some (Exception "UnicodeEncodeError")) []
        (Some (λ text g, (g, Some (Exception "TclError")))) [])).1
  = Return tt.
Proof.
  apply emit_returns_normally; simpl.
  - intros e He. injection He as <-. reflexivity.
  - intros cb e Hcb He. injection Hcb as <-. simpl in He. injection He as <-.
    reflexivity.
Defined.

(** An exception that is not an instance of [Exception] is outside what
    either [except Exception] clause catches. *)
Remark emit_propagates_SystemExit :
  (PrintUtils._emit "hello" LF
     (PrintUtils.World (G:=list string) [] (λ _, None) []
        (Some (λ text g, (g, Some (BaseException "SystemExit")))) [])).1
  = Raise (BaseException "SystemExit").
Proof. reflexivity. Qed.



(** C9. Registering [f2] after [f1] leaves the world exactly as registering
    [f2] alone: one callback slot, holding the last registration. When [f2]
    is a callback, an emit calls [print] and then this callback, once, and no
    other. When [f2] is [None], no request of the print API calls a callback
    or touches the GUI state, and the console receives what it would have
    received with a callback in place. *)
Theorem register_replaces_and_unregisters {G} (f1 f2 : option (PrintUtils.callback G))
    (w : PrintUtils.world G) :
  let w1 := (PrintUtils.register_gui_logger f1 w).2 in
  let w2 := (PrintUtils.register_gui_logger f2 w1).2 in
  w2 = (PrintUtils.register_gui_logger f2 w).2
  ∧ PrintUtils._gui_callback w2 = f2
  ∧ (∀ cb2 text end_,
       f2 = Some cb2 →
       (∀ e, PrintUtils.stdout_raises w (text +:+ end_) = Some e →
             isinstance_Exception e = true) →
       PrintUtils.calls (PrintUtils._emit text end_ w2).2
       = PrintUtils.calls w ++ [PrintUtils.CallPrint text end_; PrintUtils.CallGui text]
       ∧ PrintUtils.gui (PrintUtils._emit text end_ w2).2 = (cb2 text (PrintUtils.gui w)).1)
  ∧ (f2 = None →
     ∀ r, let w' := (PrintUtils.run_print r w2).2 in
          PrintUtils._gui_callback w' = None
          ∧ PrintUtils.gui w' = PrintUtils.gui w
          ∧ PrintUtils.forwarded_texts (PrintUtils.calls w')
            = PrintUtils.forwarded_texts (PrintUtils.calls w)
          ∧ (PrintUtils.benign w →
             (PrintUtils.run_print r w2).1 = Return tt
             ∧ PrintUtils.stdout w' = PrintUtils.stdout (PrintUtils.run_print r w).2)).
Proof.
  destruct w as [out raises g cb cs]. simpl. split; [done|]. split; [done|]. split.
  - intros cb2 text end_ -> Hout.
    unfold PrintUtils._emit, mbind, SE_bind, bind, try_except_Exception,
      PrintUtils.print, PrintUtils.call_callback, get, pass, ret; simpl.
    destruct (raises (text +:+ end_)) as [e|] eqn:Hr; simpl.
    + rewrite (Hout e eq_refl); simpl.
      destruct (cb2 text g) as [g' [[m|m]|]]; simpl; by rewrite <- app_assoc.
    + destruct (cb2 text g) as [g' [[m|m]|]]; simpl; by rewrite <- app_assoc.
  - intros -> r.
    destruct (quiet_run_print r (PrintUtils.World out raises g None cs) eq_refl)
      as (Hc & Hg & Hf).
    split; [done|]. split; [done|]. split; [done|].
    intros [Hout Hcb].
    rewrite (emits_run_print r (PrintUtils.World out raises g None cs)),
            (emits_run_print r (PrintUtils.World out raises g cb cs)); [done|done|].
    split; [done|]. intros; simplify_eq.
Qed.

Lemma register_replaces_and_unregisters_witness :
  let loud : PrintUtils.callback (list string) := λ text g, (g ++ [text], None) in
  let w := PrintUtils.World (G:=list string) [] (λ _, None) [] None [] in
  let w2 := (PrintUtils.register_gui_logger None
               (PrintUtils.register_gui_logger (Some loud) w).2).2 in
  let w3 := (PrintUtils.register_gui_logger (Some loud) w2).2 in
  (PrintUtils.gui (PrintUtils.run_print (PrintUtils.Info "ready") w2).2 = []
   ∧ PrintUtils.stdout (PrintUtils.run_print (PrintUtils.Info "ready") w2).2
     = PrintUtils.stdout (PrintUtils.run_print (PrintUtils.Info "ready") w).2)
  ∧ PrintUtils.gui (PrintUtils._emit "ready" LF w3).2 = ["ready"].
Proof.
  intros loud w w2 w3. split.
  - destruct (register_replaces_and_unregisters (Some loud) None w)
      as (_ & _ & _ & Hnone).
    destruct (Hnone eq_refl (PrintUtils.Info "ready")) as (_ & Hg & _ & Hout).
    split; [exact Hg|]. apply Hout. split; simpl; intros; discriminate.
  - destruct (register_replaces_and_unregisters None (Some loud) w2)
      as (_ & _ & Hsome & _).
    destruct (Hsome loud "ready" LF eq_refl) as [_ Hg]; [simpl; discriminate|].
    exact Hg.
Defined.

(** ** The handlers of the GUI *)

(** C10. With no image opened, [start_drawing] shows the warning and returns
    with the object and the configuration file as they were; as the command
    of the start button it starts no thread, and the whole state of the
    process, start button and loaded configuration included, stays the
    same. *)
Theorem start_drawing_without_image (s : Gui.system) :
  Gui.image_path (Gui.self (Gui.proc s)) = None →
  Gui.start_drawing (Gui.proc s)
  = (Return [Gui.showwarning "未选择图片" "请先通过 文件 -> 打开文件 选择图片。"],
     Gui.proc s)
  ∧ Gui.handle Gui.start_drawing s = s.
Proof.
  intros Hpath. destruct s as [[g file] ths next]; simpl in *.
  unfold Gui.handle, Gui.start_drawing, mbind, SE_bind, bind, get; simpl.
  rewrite Hpath; simpl. done.
Qed.

Lemma start_drawing_without_image_witness :
  Gui.image_path (Gui.self (Gui.proc (Gui.initial Config.CONFIG))) = None
  ∧ Gui.handle Gui.start_drawing (Gui.initial Config.CONFIG) = Gui.initial Config.CONFIG.
Proof.
  split; [reflexivity|].
  apply (start_drawing_without_image (Gui.initial Config.CONFIG)). reflexivity.
Defined.

(** *** Saving the configuration editor *)

Lemma get_option_insert (cfg : config) (params : section_dict) section key v section' key' :
  cfg !! section = Some params →
  get_option (<[section := <[key := v]> params]> cfg) section' key'
  = if decide ((section, key) = (section', key')) then Some v
    else get_option cfg section' key'.
Proof.
  intros Hs. unfold get_option.
  destruct (decide (section = section')) as [<-|Hne].
  - rewrite lookup_insert_eq, Hs; simpl.
    destruct (decide (key = key')) as [<-|Hk].
    + rewrite lookup_insert_eq. by rewrite decide_True.
    + rewrite lookup_insert_ne by done. rewrite decide_False by congruence. done.
  - rewrite lookup_insert_ne by done. rewrite decide_False by congruence. done.
Qed.

Section SaveFacts.
Variable eval : Gui.evaluator.

Lemma store_entry_sections p entry section :
  is_Some (Gui.config_data (Gui.self p) !! section) →
  is_Some (Gui.config_data (Gui.self (Gui.store_entry eval p entry)) !! section).
Proof.
  destruct entry as [[s k] raw], p as [[cfg ? ? ? ? ?] ?]; simpl. intros Hs.
  destruct (decide (s = section)) as [->|Hne].
  - rewrite lookup_insert_eq. eauto.
  - by rewrite lookup_insert_ne.
Qed.

Lemma savable_store p entry es :
  Gui.savable eval p (entry :: es) → Gui.savable eval (Gui.store_entry eval p entry) es.
Proof.
  intros [Hsec Hev]. split.
  - intros section key raw Hin. apply store_entry_sections.
    apply (Hsec section key raw). by right.
  - intros p' section key raw e Hin. apply Hev. by right.
Qed.

Lemma savable_app p es1 es2 :
  Gui.savable eval p (es1 ++ es2) → Gui.savable eval p es1.
Proof.
  intros [Hsec Hev]. split.
  - intros section key raw Hin. apply (Hsec section key raw), elem_of_app. by left.
  - intros p' section key raw e Hin. apply Hev, elem_of_app. by left.
Qed.

(** The loop of [save_and_close] stores the entries one after the other. *)
Lemma save_entries_foldl (es : Gui.entries) (p : Gui.process) :
  Gui.savable eval p es →
  Gui.save_entries eval es p = (Return tt, foldl (Gui.store_entry eval) p es).
Proof.
  revert p. induction es as [|[[section key] raw] es IH]; intros p Hsav; [done|].
  destruct (Hsav) as [Hsec Hev].
  destruct (Hsec section key raw) as [params Hs]; [by left|].
  unfold Gui.save_entries. simpl. unfold bind at 1.
  assert ((val ← try_except_Exception (λ p, (eval p section key raw, p))
                                      (λ _, ret (PStr raw));
           Gui.config_data_setitem section key val) p
          = (Return tt, Gui.store_entry eval p ((section, key), raw))) as ->.
  { unfold mbind, SE_bind, bind, try_except_Exception, Gui.config_data_setitem,
      get, modify, ret; simpl.
    unfold Gui.typed_value. rewrite (lookup_total_correct _ _ _ Hs).
    destruct (eval p section key raw) as [v|e] eqn:Hr; simpl.
    - unfold mbind, SE_bind, bind; simpl. by rewrite Hs.
    - rewrite (Hev p section key raw e) by (done || by left). simpl.
      unfold mbind, SE_bind, bind; simpl. by rewrite Hs. }
  exact (IH (Gui.store_entry eval p ((section, key), raw))
            (savable_store p ((section, key), raw) es Hsav)).
Qed.

Lemma foldl_store_frame (es : Gui.entries) p section key :
  (section, key) ∉ es.*1 →
  (∀ s k raw, ((s, k), raw) ∈ es → is_Some (Gui.config_data (Gui.self p) !! s)) →
  get_option (Gui.config_data (Gui.self (foldl (Gui.store_entry eval) p es))) section key
  = get_option (Gui.config_data (Gui.self p)) section key.
Proof.
  revert p. induction es as [|[[s k] raw] es IH]; intros p Hnotin Hsec; [done|].
  simpl in Hnotin. apply not_elem_of_cons in Hnotin as [Hne Hnotin].
  destruct (Hsec s k raw) as [params Hs]; [by left|].
  simpl foldl. rewrite IH; [| done |].
  - destruct p as [[cfg ? ? ? ? ?] ?]; simpl in *.
    rewrite (lookup_total_correct _ _ _ Hs).
    rewrite (get_option_insert cfg params s k _ section key Hs).
    by rewrite decide_False by congruence.
  - intros s' k' raw' Hin.
    apply (store_entry_sections p ((s, k), raw)). apply (Hsec s' k' raw'). by right.
Qed.

Lemma foldl_store_sections (es : Gui.entries) p section :
  is_Some (Gui.config_data (Gui.self p) !! section) →
  is_Some (Gui.config_data (Gui.self (foldl (Gui.store_entry eval) p es)) !! section).
Proof.
  revert p. induction es as [|entry es IH]; intros p Hs; [done|].
  simpl. by apply IH, store_entry_sections.
Qed.

Lemma foldl_store_lookup (es1 es2 : Gui.entries) p section key raw :
  NoDup (es1 ++ ((section, key), raw) :: es2).*1 →
  (∀ s k r, ((s, k), r) ∈ es1 ++ ((section, key), raw) :: es2 →
            is_Some (Gui.config_data (Gui.self p) !! s)) →
  get_option
    (Gui.config_data
       (Gui.self (foldl (Gui.store_entry eval) p (es1 ++ ((section, key), raw) :: es2))))
    section key
  = Some (Gui.typed_value eval (foldl (Gui.store_entry eval) p es1) section key raw).
Proof.
  intros Hnd Hsec. rewrite foldl_app. simpl foldl.
  rewrite fmap_app, fmap_cons in Hnd. apply NoDup_app in Hnd as (_ & _ & Hnd).
  apply NoDup_cons in Hnd as [Hfresh _]. simpl in Hfresh.
  set (p1 := foldl (Gui.store_entry eval) p es1).
  assert (∀ s k r, ((s, k), r) ∈ ((section, key), raw) :: es2 →
            is_Some (Gui.config_data (Gui.self p1) !! s)) as Hsec1.
  { intros s k r Hin. apply foldl_store_sections, (Hsec s k r), elem_of_app. by right. }
  rewrite foldl_store_frame; [| done |].
  - destruct (Hsec1 section key raw) as [params Hs]; [by left|].
    destruct p1 as [[cfg ? ? ? ? ?] ?]; simpl in *.
    rewrite (lookup_total_correct _ _ _ Hs).
    rewrite (get_option_insert cfg params section key _ section key Hs).
    by rewrite decide_True.
  - intros s k r Hin.
    apply (store_entry_sections p1 ((section, key), raw)), (Hsec1 s k r). by right.
Qed.
End SaveFacts.

(** The entries of an editor opened on [cfg]: one per option of [cfg], each
    option once. *)
Lemma open_modify_config_elem cfg typed section key raw :
  ((section, key), raw) ∈ Gui.open_modify_config cfg typed
  ↔ is_Some (get_option cfg section key) ∧ raw = typed section key.
Proof.
  unfold Gui.open_modify_config, get_option. rewrite list_elem_of_bind. split.
  - intros ([s params] & Hin & Hs). apply elem_of_map_to_list in Hs.
    apply list_elem_of_bind in Hin as ([k v] & Hin & Hk).
    apply elem_of_map_to_list in Hk. apply list_elem_of_singleton in Hin.
    injection Hin as -> -> ->. rewrite Hs; simpl. eauto.
  - intros [[v Hv] ->]. destruct (cfg !! section) as [params|] eqn:Hs; [|done].
    simpl in Hv. exists (section, params). split; [|by apply elem_of_map_to_list].
    apply list_elem_of_bind. exists (key, v).
    split; [by apply list_elem_of_singleton | by apply elem_of_map_to_list].
Qed.

Lemma open_modify_config_NoDup cfg typed :
  NoDup (Gui.open_modify_config cfg typed).*1.
Proof.
  unfold Gui.open_modify_config.
  assert (∀ l : list (string * section_dict), NoDup l.*1 →
           NoDup ((l ≫= λ '(section, params),
                     map_to_list params ≫= λ '(k, _), [((section, k), typed section k)]).*1)) as H.
  { induction l as [|[s params] l IH]; intros Hnd; [constructor|].
    simpl in Hnd. apply NoDup_cons in Hnd as [Hfresh Hnd].
    rewrite bind_cons, fmap_app. apply NoDup_app. split; [|split].
    - assert (∀ l' : list (string * pyval), NoDup l'.*1 →
               NoDup ((l' ≫= λ '(k, _), [((s, k), typed s k)]).*1)) as H'.
      { induction l' as [|[k v] l' IH']; intros Hnd'; [constructor|].
        simpl in Hnd'. apply NoDup_cons in Hnd' as [Hf' Hnd'].
        rewrite bind_cons, fmap_app; simpl. apply NoDup_cons. split; [|by apply IH'].
        intros Hin. apply Hf'. apply list_elem_of_fmap in Hin as ([[s' k'] raw] & Heq & Hin).
        simpl in Heq. injection Heq as <- <-.
        apply list_elem_of_bind in Hin as ([k2 v2] & Hin & Hk2).
        apply list_elem_of_singleton in Hin. injection Hin as -> _.
        apply list_elem_of_fmap. by exists (k2, v2). }
      apply H'. apply NoDup_fst_map_to_list.
    - intros [s' k'] Hin1 Hin2. apply Hfresh.
      apply list_elem_of_fmap in Hin1 as ([[s1 k1] raw1] & Heq & Hin1).
      simpl in Heq. injection Heq as <- <-.
      apply list_elem_of_bind in Hin1 as ([k2 v2] & Hin1 & _).
      apply list_elem_of_singleton in Hin1. injection Hin1 as -> _ _.
      apply list_elem_of_fmap in Hin2 as ([[s3 k3] raw3] & Heq & Hin2).
      simpl in Heq. injection Heq as <- <-.
      apply list_elem_of_bind in Hin2 as ([s4 params4] & Hin2 & Hs4).
      apply list_elem_of_bind in Hin2 as ([k5 v5] & Hin2 & _).
      apply list_elem_of_singleton in Hin2. injection Hin2 as -> _ _.
      apply list_elem_of_fmap. by exists (s4, params4).
    - by apply IH. }
  apply H. apply NoDup_fst_map_to_list.
Qed.

(** C3. Saving the configuration editor, whose entries [es] name sections of
    the configuration and hold texts whose evaluation returns or raises an
    instance of [Exception], returns normally, and afterwards: each option
    shown holds what [eval] returned for its text, called when the loop
    reached that entry, or the text itself, as a string, when [eval] raised;
    the same [eval] serves every option, whatever the option is; the options
    not shown are as before; the configuration file holds the resulting
    configuration. *)
Theorem save_and_close_stores_evaluated_text (eval : Gui.evaluator)
    (es : Gui.entries) (p : Gui.process) :
  NoDup es.*1 →
  Gui.savable eval p es →
  let p' := (Gui.save_and_close eval es p).2 in
  (Gui.save_and_close eval es p).1 = Return tt
  ∧ (∀ es1 section key raw es2, es = es1 ++ ((section, key), raw) :: es2 →
       get_option (Gui.config_data (Gui.self p')) section key
       = Some (match eval (Gui.save_entries eval es1 p).2 section key raw with
               | Return v => v
               | Raise _ => PStr raw
               end))
  ∧ (∀ section key, (section, key) ∉ es.*1 →
       get_option (Gui.config_data (Gui.self p')) section key
       = get_option (Gui.config_data (Gui.self p)) section key)
  ∧ Gui.config_file p' = Gui.config_data (Gui.self p').
Proof.
  intros Hnd Hsav. pose proof Hsav as [Hsec _].
  unfold Gui.save_and_close.
  rewrite (bind_Return _ _ _ _ _ (save_entries_foldl eval es p Hsav)).
  set (p1 := foldl (Gui.store_entry eval) p es).
  assert (∀ q : Gui.process,
            Gui.config_data (Gui.self
              ((Gui.save_config ;; Gui.append_log "配置已保存") q).2)
            = Gui.config_data (Gui.self q)
            ∧ Gui.config_file ((Gui.save_config ;; Gui.append_log "配置已保存") q).2
              = Gui.config_data (Gui.self q)
            ∧ ((Gui.save_config ;; Gui.append_log "配置已保存") q).1 = Return tt)
    as Hrest by (by intros [[] ?]).
  destruct (Hrest p1) as (Hcfg & Hfile & Hret). cbv beta zeta. rewrite Hcfg, Hfile.
  split; [done|]. split; [|split; [|done]].
  - intros es1 section key raw es2 Hes. unfold p1. subst es.
    rewrite (save_entries_foldl eval es1 p (savable_app eval p es1 _ Hsav)).
    by apply foldl_store_lookup.
  - intros section key Hnotin. by apply foldl_store_frame.
Qed.

Lemma save_and_close_stores_evaluated_text_witness :
  let es := [ (("draw_config", "DELAY"), "2 * 3");
              (("draw_config", "ENABLE_JITTER"), "False");
              (("image_config", "BRUSH_STEP"), "wide") ] in
  let p' := (Gui.save_and_close Gui.eval_on_samples es (Gui.__init__ Config.CONFIG)).2 in
  get_option (Gui.config_data (Gui.self p')) "draw_config" "DELAY" = Some (PInt 6)
  ∧ get_option (Gui.config_data (Gui.self p')) "image_config" "BRUSH_STEP"
    = Some (PStr "wide")
  ∧ get_option (Gui.config_file p') "draw_config" "ENABLE_JITTER" = Some (PBool false).
Proof.
  intros es p'.
  destruct (save_and_close_stores_evaluated_text Gui.eval_on_samples es
              (Gui.__init__ Config.CONFIG)) as (_ & Hshown & _ & Hfile).
  - apply (bool_decide_unpack _). vm_compute. exact I.
  - split.
    + intros section key raw Hin. subst es.
      repeat (apply elem_of_cons in Hin as [Heq|Hin];
              [injection Heq as -> -> ->;
               apply (bool_decide_unpack _); vm_compute; exact I|]).
      by apply elem_of_nil in Hin.
    + intros q section key raw e Hin He. subst es.
      repeat (apply elem_of_cons in Hin as [Heq|Hin];
              [injection Heq as -> -> ->; vm_compute in He;
               try discriminate; by injection He as <-|]).
      by apply elem_of_nil in Hin.
  - fold p' in Hshown, Hfile. rewrite Hfile.
    split; [|split].
    + apply (Hshown [] "draw_config" "DELAY" "2 * 3" (tail es)). reflexivity.
    + apply (Hshown (take 2 es) "image_config" "BRUSH_STEP" "wide" []). reflexivity.
    + apply (Hshown (take 1 es) "draw_config" "ENABLE_JITTER" "False" (drop 2 es)).
      reflexivity.
Defined.

(** *** Resetting the configuration *)

Lemma lookup_total_get_option (cfg : config) section key :
  (cfg !!! section) !! key = get_option cfg section key.
Proof.
  unfold get_option. rewrite lookup_total_alt.
  by destruct (cfg !! section).
Qed.

Lemma reset_section_lookup section (defaults file : section_dict) key :
  ConfigUtils.reset_section section defaults file !! key
  = if ConfigUtils.preserved section key then file !! key else defaults !! key.
Proof.
  unfold ConfigUtils.reset_section. rewrite lookup_union, !map_lookup_filter.
  destruct (ConfigUtils.preserved section key) eqn:Hp.
  - destruct (file !! key) as [v|]; simpl.
    + rewrite option_guard_True by done. simpl.
      by destruct (defaults !! key ≫= _).
    + destruct (defaults !! key) as [d|]; simpl; [|done].
      rewrite option_guard_False; [done|]. simpl. by rewrite Hp.
  - destruct (file !! key) as [v|]; simpl.
    + rewrite option_guard_False by (simpl; by rewrite Hp). simpl.
      destruct (defaults !! key) as [d|]; simpl; [|done].
      by rewrite option_guard_True.
    + destruct (defaults !! key) as [d|]; simpl; [|done].
      by rewrite option_guard_True.
Qed.

Lemma reset_config_file_lookup (defaults file : config) section key :
  section ∈ ["draw_config"; "image_config"; "screen_config"] →
  get_option (ConfigUtils.reset_config_file defaults file) section key
  = if ConfigUtils.preserved section key then get_option file section key
    else get_option defaults section key.
Proof.
  intros Hin. rewrite <- !lookup_total_get_option, <- reset_section_lookup.
  unfold get_option, ConfigUtils.reset_config_file.
  repeat (apply elem_of_cons in Hin as [->|Hin]); [| | | by apply elem_of_nil in Hin];
    simpl; by simplify_map_eq.
Qed.

(** C7. The reset started from the menu, once confirmed, runs [do_reset] in
    a thread; it returns normally, and the configuration then stored and
    loaded in the GUI has [H_IMG], [W_IMG], [THRESHOLD_VALUE] and every key
    of [screen_config] as the stored configuration had them before, and every
    other recognised option at its default. Declined, the reset changes
    nothing. *)
Theorem reset_keeps_calibration_restores_rest (defaults : config) (p : Gui.process) :
  let p' := (Gui.do_reset defaults p).2 in
  Gui.reset_config_action true p = (Return [Gui.Thread_start Gui.do_reset_target], p)
  ∧ Gui.reset_config_action false p = (Return [], p)
  ∧ (Gui.do_reset defaults p).1 = Return tt
  ∧ Gui.config_data (Gui.self p') = Gui.config_file p'
  ∧ (∀ key, key ∈ ["H_IMG"; "W_IMG"; "THRESHOLD_VALUE"] →
       get_option (Gui.config_file p') "image_config" key
       = get_option (Gui.config_file p) "image_config" key)
  ∧ (∀ key, key ∈ ["X_A"; "Y_A"; "W"; "H"] →
       get_option (Gui.config_file p') "screen_config" key
       = get_option (Gui.config_file p) "screen_config" key)
  ∧ (∀ key, key ∈ ["DELAY"; "ENABLE_JITTER"; "JITTER_AMOUNT"; "JITTER_FREQUENCY";
                    "SPEED_FACTOR"] →
       get_option (Gui.config_file p') "draw_config" key
       = get_option defaults "draw_config" key)
  ∧ (∀ key, key ∈ ["BRUSH_STEP"; "CANNY_THRESH1"; "CANNY_THRESH2"; "EPSILON_FACTOR"] →
       get_option (Gui.config_file p') "image_config" key
       = get_option defaults "image_config" key).
Proof.
  destruct p as [g file]. simpl.
  split; [done|]. split; [done|]. split; [done|]. split; [done|].
  repeat split; intros key Hin;
    repeat (apply elem_of_cons in Hin as [Hkey|Hin];
            [subst key; by rewrite reset_config_file_lookup by set_solver|]);
    by apply elem_of_nil in Hin.
Qed.

Lemma reset_keeps_calibration_restores_rest_witness :
  let edited : config :=
    <["screen_config" := <["X_A" := PInt 100]> Config.screen_config]>
      (<["draw_config" := <["DELAY" := PInt 9]> Config.draw_config]> Config.CONFIG) in
  let p' := (Gui.do_reset Config.CONFIG (Gui.__init__ edited)).2 in
  get_option (Gui.config_data (Gui.self p')) "screen_config" "X_A" = Some (PInt 100)
  ∧ get_option (Gui.config_data (Gui.self p')) "draw_config" "DELAY" = Some (PInt 5).
Proof.
  intros edited p'.
  destruct (reset_keeps_calibration_restores_rest Config.CONFIG (Gui.__init__ edited))
    as (_ & _ & _ & Hloaded & _ & Hscreen & Hdraw & _).
  fold p' in Hloaded, Hscreen, Hdraw. rewrite Hloaded. split.
  - rewrite (Hscreen "X_A") by (by left). vm_compute. reflexivity.
  - rewrite (Hdraw "DELAY") by (by left). vm_compute. reflexivity.
Defined.

(** ** The Coordinate Mapper *)

(** C8. For a screen rectangle of non-zero width and height, and a working
    resolution that is not degenerate (an Image Frame has no zero dimension),
    the mapper sends the image point [(0, 0)] to [(X_A, Y_A)] and the image
    point [(W_IMG, H_IMG)] to [(X_A + W, Y_A + H)]. *)
Theorem mapper_round_trip (W_IMG H_IMG : Z) (r : CoordMapper.ScreenRectangle) :
  CoordMapper.W r ≠ 0 → CoordMapper.H r ≠ 0 →
  W_IMG ≠ 0 → H_IMG ≠ 0 →
  CoordMapper.map_point W_IMG H_IMG r 0%Qc 0%Qc
  = CoordMapper.ScreenPoint (CoordMapper.of_int (CoordMapper.X_A r))
                            (CoordMapper.of_int (CoordMapper.Y_A r))
  ∧ CoordMapper.map_point W_IMG H_IMG r
      (CoordMapper.of_int W_IMG) (CoordMapper.of_int H_IMG)
    = CoordMapper.ScreenPoint
        (CoordMapper.of_int (CoordMapper.X_A r + CoordMapper.W r))
        (CoordMapper.of_int (CoordMapper.Y_A r + CoordMapper.H r)).
Proof.
  intros HW HH HWI HHI. unfold CoordMapper.map_point, CoordMapper.of_int.
  rewrite bool_decide_eq_false_2 by tauto.
  assert (Qc_of_Z W_IMG ≠ 0%Qc) as HWq
    by (rewrite <- Z2Qc_inj_0; by intros ?%Z2Qc_inj).
  assert (Qc_of_Z H_IMG ≠ 0%Qc) as HHq
    by (rewrite <- Z2Qc_inj_0; by intros ?%Z2Qc_inj).
  split; f_equal.
  - ring.
  - ring.
  - rewrite Z2Qc_inj_add. by field.
  - rewrite Z2Qc_inj_add. by field.
Qed.

Lemma mapper_round_trip_witness :
  let r := CoordMapper.Rect 1890 365 655 910 in
  CoordMapper.map_point 960 1280 r 0%Qc 0%Qc
  = CoordMapper.ScreenPoint (CoordMapper.of_int 1890) (CoordMapper.of_int 365)
  ∧ CoordMapper.map_point 960 1280 r (CoordMapper.of_int 960) (CoordMapper.of_int 1280)
    = CoordMapper.ScreenPoint (CoordMapper.of_int (1890 + 655))
                              (CoordMapper.of_int (365 + 910)).
Proof.
  intros r. apply (mapper_round_trip 960 1280 r); simpl; lia.
Defined.

(** ** Drawing runs and threads *)

Section ThreadFacts.
Import Gui.

Lemma keeps_ret {A} (a : A) : keeps_start_btn (ret a).
Proof. done. Qed.

Lemma keeps_bind {A B} (m : SE process A) (k : A → SE process B) :
  keeps_start_btn m → (∀ a, keeps_start_btn (k a)) → keeps_start_btn (m ≫= k).
Proof.
  intros Hm Hk p. unfold mbind, SE_bind, bind. specialize (Hm p).
  destruct (m p) as [[a|e] p1]; simpl in *; [|done]. by rewrite Hk.
Qed.

Lemma keeps_try_except {A} (m : SE process A) (h : exn → SE process A) :
  keeps_start_btn m → (∀ e, keeps_start_btn (h e)) →
  keeps_start_btn (try_except_Exception m h).
Proof.
  intros Hm Hh p. unfold try_except_Exception. specialize (Hm p).
  destruct (m p) as [[a|e] p1]; simpl in *; [done|].
  destruct (isinstance_Exception e); [by rewrite Hh | done].
Qed.

Lemma keeps_for_each {A} (xs : list A) (body : A → SE process unit) :
  (∀ x, keeps_start_btn (body x)) → keeps_start_btn (for_each xs body).
Proof.
  intros Hbody. induction xs as [|x xs IH]; [done|].
  apply (keeps_bind (body x) (λ _, for_each xs body)); auto.
Qed.

Lemma keeps_outcome {A} (r : result A) : keeps_start_btn (λ p, (r, p)).
Proof. done. Qed.

Lemma keeps_append_log text : keeps_start_btn (append_log text).
Proof. by intros [[] ?]. Qed.

Lemma keeps_set_config_data (f : process → config) :
  keeps_start_btn (modify (λ p, set_self (set_config_data (f p)) p)).
Proof. by intros [[] ?]. Qed.

Lemma keeps_save_config : keeps_start_btn save_config.
Proof. by intros [[] ?]. Qed.

Lemma keeps_config_data_setitem section key val :
  keeps_start_btn (config_data_setitem section key val).
Proof.
  intros [[cfg ? ? ? ? ?] ?]. unfold config_data_setitem, mbind, SE_bind, bind, get; simpl.
  by destruct (cfg !! section).
Qed.

Lemma keeps_save_and_close eval es : keeps_start_btn (save_and_close eval es).
Proof.
  unfold save_and_close, save_entries.
  apply keeps_bind; [|intros _; apply keeps_bind; [apply keeps_save_config|]].
  - apply keeps_for_each. intros [[section key] raw].
    apply keeps_bind; [|intros v; apply keeps_config_data_setitem].
    apply keeps_try_except; [by intros ? | intros _; apply keeps_ret].
  - intros _. apply keeps_append_log.
Qed.

Lemma keeps_refresh_config : keeps_start_btn refresh_config.
Proof. by intros [[] ?]. Qed.

Lemma keeps_run_after : keeps_start_btn run_after.
Proof. intros [[? ? ? ? ? [|msg q]] ?]; done. Qed.

Lemma keeps_run_draw_leave outcome : keeps_start_btn (run_draw_leave outcome).
Proof.
  apply keeps_try_except.
  - apply keeps_bind; [apply keeps_outcome | intros _; apply keeps_append_log].
  - intros e. apply keeps_append_log.
Qed.

Lemma keeps_do_reset defaults : keeps_start_btn (do_reset defaults).
Proof. by intros [[] ?]. Qed.

Lemma keeps_do_capture captured : keeps_start_btn (do_capture captured).
Proof.
  intros [[cfg ? ? ? ? ?] ?]. unfold do_capture, try_except_Exception, mbind, SE_bind, bind.
  destruct captured as [[[[X Y] W] H]|[m|m]]; simpl; done.
Qed.

Lemma keeps_open_file file_path opened drawn :
  keeps_start_btn (open_file file_path opened drawn).
Proof.
  intros [[] ?]. unfold open_file. case_bool_decide; [done|].
  destruct opened as [[]|[m|m]]; try done.
  by destruct drawn as [[]|[m|m]].
Qed.

(** How the invariant [one_run] fares under each kind of change. *)

Lemma one_run_frame s s' :
  threads s' = threads s → next_ident s' = next_ident s →
  start_btn (self (proc s')) = start_btn (self (proc s)) →
  one_run s → one_run s'.
Proof.
  unfold one_run, drawing. by intros -> -> ->.
Qed.

Lemma fresh_ident s : one_run s → threads s !! next_ident s = None.
Proof.
  intros (_ & Hid & _). destruct (threads s !! next_ident s) as [pc|] eqn:Hl; [|done].
  apply Hid in Hl. lia.
Qed.

Lemma drawing_insert_fresh s pc t :
  threads s !! next_ident s = None → is_draw pc = false →
  (∃ pc0, <[next_ident s := pc]> (threads s) !! t = Some pc0 ∧ is_draw pc0 = true)
  ↔ drawing s t.
Proof.
  intros Hfresh Hpc. unfold drawing. destruct (decide (next_ident s = t)) as [<-|Hne].
  - rewrite lookup_insert_eq, Hfresh. split; intros (pc0 & Hl & Hd); congruence.
  - by rewrite lookup_insert_ne.
Qed.

Lemma one_run_spawn_other s s' pc :
  is_draw pc = false →
  threads s' = <[next_ident s := pc]> (threads s) → next_ident s' = S (next_ident s) →
  start_btn (self (proc s')) = start_btn (self (proc s)) →
  one_run s → one_run s'.
Proof.
  intros Hpc Hths Hnext Hb Hinv. pose proof (fresh_ident s Hinv) as Hfresh.
  destruct Hinv as (Hpos & Hid & Hone & Hbtn).
  unfold one_run, drawing. rewrite Hths, Hnext, Hb.
  split; [lia|]. split; [|split].
  - intros t pc0. destruct (decide (next_ident s = t)) as [<-|Hne].
    + intros _. lia.
    + rewrite lookup_insert_ne by done. intros Hl%Hid. lia.
  - intros t1 t2 H1 H2.
    apply (drawing_insert_fresh s pc) in H1, H2; try done. by apply Hone.
  - rewrite Hbtn. split.
    + intros [t Ht]. exists t. by apply (drawing_insert_fresh s pc).
    + intros [t Ht]. exists t. by apply (drawing_insert_fresh s pc) in Ht.
Qed.

Lemma one_run_spawn_draw s s' pc :
  is_draw pc = true →
  start_btn (self (proc s)) = NORMAL →
  threads s' = <[next_ident s := pc]> (threads s) → next_ident s' = S (next_ident s) →
  start_btn (self (proc s')) = DISABLED →
  one_run s → one_run s'.
Proof.
  intros Hpc Hnormal Hths Hnext Hb Hinv. pose proof (fresh_ident s Hinv) as Hfresh.
  destruct Hinv as (Hpos & Hid & Hone & Hbtn).
  assert (∀ t, ¬ drawing s t) as Hnone.
  { intros t Ht. assert (start_btn (self (proc s)) = DISABLED) as Hd
      by (apply Hbtn; eauto). congruence. }
  assert (∀ t, (∃ pc0, <[next_ident s := pc]> (threads s) !! t = Some pc0
                       ∧ is_draw pc0 = true) → t = next_ident s) as Honly.
  { intros t (pc0 & Hl & Hd). destruct (decide (next_ident s = t)) as [<-|Hne]; [done|].
    rewrite lookup_insert_ne in Hl by done. destruct (Hnone t). by exists pc0. }
  unfold one_run, drawing. rewrite Hths, Hnext, Hb.
  split; [lia|]. split; [|split].
  - intros t pc0. destruct (decide (next_ident s = t)) as [<-|Hne].
    + intros _. lia.
    + rewrite lookup_insert_ne by done. intros Hl%Hid. lia.
  - intros t1 t2 H1%Honly H2%Honly. congruence.
  - split; [|done]. intros _. exists (next_ident s), pc.
    by rewrite lookup_insert_eq.
Qed.

Lemma one_run_update_draw s s' t pc pc' :
  threads s !! t = Some pc → is_draw pc = true → is_draw pc' = true →
  threads s' = <[t := pc']> (threads s) → next_ident s' = next_ident s →
  start_btn (self (proc s')) = start_btn (self (proc s)) →
  one_run s → one_run s'.
Proof.
  intros Hl Hpc Hpc' Hths Hnext Hb (Hpos & Hid & Hone & Hbtn).
  assert (∀ t0, (∃ pc0, <[t := pc']> (threads s) !! t0 = Some pc0 ∧ is_draw pc0 = true)
                ↔ drawing s t0) as Hsame.
  { intros t0. unfold drawing. destruct (decide (t = t0)) as [<-|Hne].
    - rewrite lookup_insert_eq, Hl. split; intros _; eauto.
    - by rewrite lookup_insert_ne. }
  unfold one_run, drawing. rewrite Hths, Hnext, Hb.
  split; [done|]. split; [|split].
  - intros t0 pc0. destruct (decide (t = t0)) as [<-|Hne].
    + intros _. by apply (Hid t pc).
    + rewrite lookup_insert_ne by done. apply Hid.
  - intros t1 t2 H1%Hsame H2%Hsame. by apply Hone.
  - rewrite Hbtn. split; intros [t0 Ht]; exists t0; by apply Hsame.
Qed.

Lemma one_run_exit_draw s s' t pc :
  threads s !! t = Some pc → is_draw pc = true →
  threads s' = delete t (threads s) → next_ident s' = next_ident s →
  start_btn (self (proc s')) = NORMAL →
  one_run s → one_run s'.
Proof.
  intros Hl Hpc Hths Hnext Hb (Hpos & Hid & Hone & Hbtn).
  assert (∀ t0, ¬ ∃ pc0, delete t (threads s) !! t0 = Some pc0 ∧ is_draw pc0 = true)
    as Hnone.
  { intros t0 (pc0 & Hl0 & Hd). destruct (decide (t = t0)) as [<-|Hne].
    - by rewrite lookup_delete_eq in Hl0.
    - rewrite lookup_delete_ne in Hl0 by done. apply Hne.
      apply Hone; [by exists pc | by exists pc0]. }
  unfold one_run, drawing. rewrite Hths, Hnext, Hb.
  split; [done|]. split; [|split].
  - intros t0 pc0. destruct (decide (t = t0)) as [<-|Hne].
    + by rewrite lookup_delete_eq.
    + rewrite lookup_delete_ne by done. apply Hid.
  - intros t1 t2 H1. by destruct (Hnone t1).
  - split; [done|]. intros [t0 Ht]. by destruct (Hnone t0).
Qed.

Lemma one_run_exit_other s s' t pc :
  threads s !! t = Some pc → is_draw pc = false →
  threads s' = delete t (threads s) → next_ident s' = next_ident s →
  start_btn (self (proc s')) = start_btn (self (proc s)) →
  one_run s → one_run s'.
Proof.
  intros Hl Hpc Hths Hnext Hb (Hpos & Hid & Hone & Hbtn).
  assert (∀ t0, (∃ pc0, delete t (threads s) !! t0 = Some pc0 ∧ is_draw pc0 = true)
                ↔ drawing s t0) as Hsame.
  { intros t0. unfold drawing. destruct (decide (t = t0)) as [<-|Hne].
    - rewrite lookup_delete_eq, Hl. split; intros (pc0 & ? & ?); congruence.
    - by rewrite lookup_delete_ne. }
  unfold one_run, drawing. rewrite Hths, Hnext, Hb.
  split; [done|]. split; [|split].
  - intros t0 pc0. destruct (decide (t = t0)) as [<-|Hne].
    + by rewrite lookup_delete_eq.
    + rewrite lookup_delete_ne by done. apply Hid.
  - intros t1 t2 H1%Hsame H2%Hsame. by apply Hone.
  - rewrite Hbtn. split; intros [t0 Ht]; exists t0; by apply Hsame.
Qed.

Lemma handle_unit (m : SE process unit) s :
  handle (m ;; ret []) s = System (m (proc s)).2 (threads s) (next_ident s).
Proof.
  unfold handle, mbind, SE_bind, bind. by destruct (m (proc s)) as [[[]|e] p'].
Qed.

Lemma one_run_handle_unit (m : SE process unit) s :
  keeps_start_btn m → one_run s → one_run (handle (m ;; ret []) s).
Proof.
  intros Hm. rewrite handle_unit. apply one_run_frame; try done. apply Hm.
Qed.

Lemma one_run_in_thread_update s t pc pc' body :
  threads s !! t = Some pc → is_draw pc = true → is_draw pc' = true →
  keeps_start_btn body → one_run s → one_run (in_thread t body (Some pc') s).
Proof.
  intros Hl Hpc Hpc' Hbody. apply (one_run_update_draw s _ t pc pc'); try done.
  apply Hbody.
Qed.

Lemma one_run_in_thread_exit s t pc body :
  threads s !! t = Some pc → is_draw pc = false →
  keeps_start_btn body → one_run s → one_run (in_thread t body None s).
Proof.
  intros Hl Hpc Hbody. apply (one_run_exit_other s _ t pc); try done. apply Hbody.
Qed.

Lemma threads_handle_open_file file_path opened drawn s :
  threads (handle (open_file file_path opened drawn) s) = threads s
  ∧ next_ident (handle (open_file file_path opened drawn) s) = next_ident s.
Proof.
  unfold handle, open_file. case_bool_decide; [done|].
  destruct opened as [[]|[m|m]]; try done.
  by destruct drawn as [[]|[m|m]].
Qed.

Lemma one_run_open_file file_path opened drawn s :
  one_run s → one_run (handle (open_file file_path opened drawn) s).
Proof.
  destruct (threads_handle_open_file file_path opened drawn s) as [Hths Hnext].
  apply one_run_frame; [done | done |].
  pose proof (keeps_open_file file_path opened drawn (proc s)) as Hk.
  unfold handle.
  destruct (open_file file_path opened drawn (proc s)) as [[rs|e] p']; simpl in *.
  - by destruct (start_threads rs (threads s) (next_ident s)).
  - done.
Qed.

Lemma one_run_start_drawing s :
  start_btn (self (proc s)) = NORMAL → one_run s → one_run (handle start_drawing s).
Proof.
  intros Hnormal. destruct s as [[g file] ths next]; simpl in *.
  unfold handle, start_drawing, mbind, SE_bind, bind, get; simpl.
  destruct (truthy (image_path g)); simpl; [|done].
  apply (one_run_spawn_draw _ _ (draw_started (algorithm_var g))); done.
Qed.

Section StepFacts.
Variable eval : evaluator.
Variable defaults : config.

Lemma one_run_step e s s' :
  step eval defaults e s = Some s' → one_run s → one_run s'.
Proof.
  destruct e as [file_path opened drawn|algo| | |es|confirmed| | |t|t outcome|t|t captured|t];
    simpl; intros Hstep Hinv.
  - injection Hstep as <-. by apply one_run_open_file.
  - case_bool_decide; [|done]. injection Hstep as <-.
    apply (one_run_frame s); try done; by destruct s as [[[] ?] ? ?].
  - case_bool_decide; [|done]. injection Hstep as <-. by apply one_run_start_drawing.
  - injection Hstep as <-. apply one_run_handle_unit; [apply keeps_refresh_config | done].
  - injection Hstep as <-. apply one_run_handle_unit; [apply keeps_save_and_close | done].
  - injection Hstep as <-. destruct confirmed; simpl.
    + by apply (one_run_spawn_other s _ reset_started).
    + apply (one_run_frame s); try done; by destruct s.
  - injection Hstep as <-.
    apply (one_run_spawn_other s _ capture_started); try done;
      by destruct s as [[[] ?] ? ?].
  - injection Hstep as <-. apply one_run_handle_unit; [apply keeps_run_after | done].
  - destruct (threads s !! t) as [[algo| | | |]|] eqn:Hl; try done.
    injection Hstep as <-.
    by apply (one_run_in_thread_update s t (draw_started algo)).
  - destruct (threads s !! t) as [[|d cfg path| | |]|] eqn:Hl; try done.
    injection Hstep as <-.
    apply (one_run_in_thread_update s t (draw_running d cfg path)); try done;
      apply keeps_run_draw_leave.
  - destruct (threads s !! t) as [[| | | |]|] eqn:Hl; try done.
    injection Hstep as <-.
    apply (one_run_exit_draw s _ t draw_finally); try done;
      by destruct s as [[[] ?] ? ?].
  - destruct (threads s !! t) as [[| | | |]|] eqn:Hl; try done.
    injection Hstep as <-.
    apply (one_run_in_thread_exit s t capture_started); try done;
      apply keeps_do_capture.
  - destruct (threads s !! t) as [[| | | |]|] eqn:Hl; try done.
    injection Hstep as <-.
    apply (one_run_in_thread_exit s t reset_started); try done;
      apply keeps_do_reset.
Qed.

Lemma one_run_initial file : one_run (initial file).
Proof.
  unfold one_run, drawing; simpl. split; [lia|]. split; [|split].
  - intros t pc Hl. by rewrite lookup_empty in Hl.
  - intros t1 t2 (pc & Hl & _). by rewrite lookup_empty in Hl.
  - split; [done|]. intros (t & pc & Hl & _). by rewrite lookup_empty in Hl.
Qed.

Lemma one_run_reachable file s : reachable eval defaults file s → one_run s.
Proof.
  induction 1 as [|s e s' _ IH Hstep]; [apply one_run_initial|].
  by apply (one_run_step e s).
Qed.

Lemma run_reachable file es s0 s :
  reachable eval defaults file s0 → run eval defaults es s0 = Some s →
  reachable eval defaults file s.
Proof.
  revert s0. induction es as [|e es IH]; intros s0 Hs0 Hrun; simpl in Hrun.
  - by injection Hrun as <-.
  - destruct (step eval defaults e s0) as [s1|] eqn:Hstep; [|done].
    apply (IH s1); [|done]. by apply (reachable_step _ _ _ s0 e).
Qed.

Lemma run_after es s0 :
  is_Some (run eval defaults es s0) →
  run eval defaults es s0 = Some (after eval defaults es s0).
Proof. unfold after. by intros [s ->]. Qed.

Lemma drawingb_drawing s t : drawingb s t = true ↔ drawing s t.
Proof.
  unfold drawingb, drawing. destruct (threads s !! t) as [pc|]; split.
  - eauto.
  - by intros (pc' & [= <-] & Hd).
  - done.
  - by intros (pc' & ? & _).
Qed.

(** [run_draw] is its three pieces in a row. *)
Lemma run_draw_pieces algo drawer_run p :
  (run_draw algo drawer_run p).2
  = (run_draw_finally
       (run_draw_leave
          (drawer_run (choose_drawer algo) (config_data (self p)) (image_path (self p)))
          p).2).2.
Proof.
  unfold run_draw, run_draw_leave, run_draw_finally, try_finally, try_except_Exception,
    mbind, SE_bind, bind, get, modify; simpl.
  destruct (drawer_run _ _ _) as [[]|[m|m]]; done.
Qed.
End StepFacts.
End ThreadFacts.

(** C4. In every state the process can reach: at most one thread is a
    drawing run; the start button is disabled exactly while there is one, from
    the click that starts it to the [finally] clause that ends it; while
    there is one, the click that would start another cannot happen; whatever
    the drawer returned or raised, the [finally] clause is reached next, and
    it re-enables the button and ends the run. *)
Theorem one_drawing_run_at_a_time (eval : Gui.evaluator) (defaults file : config)
    (s : Gui.system) :
  Gui.reachable eval defaults file s →
  (∀ t1 t2, Gui.drawing s t1 → Gui.drawing s t2 → t1 = t2)
  ∧ (Gui.start_btn (Gui.self (Gui.proc s)) = Gui.DISABLED ↔ ∃ t, Gui.drawing s t)
  ∧ ((∃ t, Gui.drawing s t) → Gui.step eval defaults Gui.ui_click_start s = None)
  ∧ (∀ t outcome s1,
       Gui.step eval defaults (Gui.draw_end t outcome) s = Some s1 →
       ∃ s2, Gui.step eval defaults (Gui.draw_exit t) s1 = Some s2)
  ∧ (∀ t s2,
       Gui.step eval defaults (Gui.draw_exit t) s = Some s2 →
       Gui.drawing s t
       ∧ Gui.start_btn (Gui.self (Gui.proc s2)) = Gui.NORMAL
       ∧ ¬ ∃ t', Gui.drawing s2 t').
Proof.
  intros Hreach. pose proof (one_run_reachable eval defaults file s Hreach) as Hinv.
  destruct (Hinv) as (Hpos & Hid & Hone & Hbtn).
  split; [done|]. split; [done|]. split; [|split].
  - intros Hrun%Hbtn. simpl. by rewrite Hrun.
  - intros t outcome s1 Hstep. simpl in Hstep.
    destruct (Gui.threads s !! t) as [[|d cfg path| | |]|] eqn:Hl; try done.
    injection Hstep as <-. simpl. rewrite lookup_insert_eq. eauto.
  - intros t s2 Hstep.
    pose proof (one_run_step eval defaults _ _ _ Hstep Hinv) as (_ & _ & _ & Hbtn2).
    simpl in Hstep.
    destruct (Gui.threads s !! t) as [[| | | |]|] eqn:Hl; try done.
    injection Hstep as <-.
    assert (Gui.start_btn (Gui.self (Gui.proc
              (Gui.in_thread t Gui.run_draw_finally None s))) = Gui.NORMAL) as Hn
      by (by destruct s as [[[] ?] ? ?]).
    split; [by exists Gui.draw_finally|]. split; [done|].
    intros Hd%Hbtn2. congruence.
Qed.

Lemma one_drawing_run_at_a_time_witness :
  let s := Gui.after Gui.eval_on_samples Config.CONFIG Gui.sample_session
             (Gui.initial Config.CONFIG) in
  Gui.drawing s 1%nat
  ∧ Gui.step Gui.eval_on_samples Config.CONFIG Gui.ui_click_start s = None.
Proof.
  intros s.
  assert (Gui.drawing s 1%nat) as Hd
    by (apply drawingb_drawing; vm_compute; reflexivity).
  split; [exact Hd|].
  apply (one_drawing_run_at_a_time Gui.eval_on_samples Config.CONFIG Config.CONFIG s).
  - apply (run_reachable _ _ _ Gui.sample_session (Gui.initial Config.CONFIG));
      [apply Gui.reachable_initial|].
    apply run_after. apply (bool_decide_unpack _). vm_compute. exact I.
  - by exists 1%nat.
Defined.

(** ** The GUI as the sink of the logging module *)

(** After [_build_ui], an emitted text is scheduled, as it is, for the log of
    the GUI, whatever callback was registered before. *)
Lemma build_ui_forwards_to_log (text end_ : string) (w : PrintUtils.world Gui.HeyTeaGUI) :
  (∀ e, PrintUtils.stdout_raises w (text +:+ end_) = Some e →
        isinstance_Exception e = true) →
  let w' := (PrintUtils._emit text end_ (Gui._build_ui w).2).2 in
  Gui.after_queue (PrintUtils.gui w') = Gui.after_queue (PrintUtils.gui w) ++ [text]
  ∧ Gui.log_text (PrintUtils.gui w') = Gui.log_text (PrintUtils.gui w).
Proof.
  intros Hout. destruct w as [out raises g cb cs]; simpl in *.
  unfold PrintUtils._emit, mbind, SE_bind, bind, try_except_Exception,
    PrintUtils.print, PrintUtils.call_callback, get, pass, ret; simpl.
  destruct (raises (text +:+ end_)) as [e|] eqn:Hr; simpl;
    [rewrite (Hout e eq_refl); simpl|]; by destruct g.
Qed.

(** The main loop then inserts the oldest scheduled text, with a line end,
    in the log. *)
Lemma run_after_appends_log (p : Gui.process) (msg : string) (rest : list string) :
  Gui.after_queue (Gui.self p) = msg :: rest →
  Gui.run_after p
  = (Return tt,
     Gui.set_self (λ g, Gui.log_text_insert (msg +:+ LF) (Gui.set_after_queue rest g)) p).
Proof.
  destruct p as [[cfg path algo btn log queue] file]; simpl. intros ->.
  reflexivity.
Qed.

(** * Further properties of the code *)

(** ** The print API *)

Section PrintLawsFacts.
Import PrintUtils PrintLaws.
Context {G : Type}.

Lemma never_raises_ret : never_raises_Exception (G:=G) (ret tt).
Proof. by intros w e. Qed.

Lemma never_raises_bind (m1 m2 : M G unit) :
  never_raises_Exception m1 → never_raises_Exception m2 →
  never_raises_Exception (m1 ;; m2).
Proof.
  intros H1 H2 w e. unfold mbind, SE_bind, bind. specialize (H1 w).
  destruct (m1 w) as [[[]|e1] w1]; simpl in *.
  - apply H2.
  - intros [= <-]. by apply H1.
Qed.

Lemma never_raises_for_each {A} (xs : list A) (body : A → M G unit) :
  (∀ x, never_raises_Exception (body x)) → never_raises_Exception (for_each xs body).
Proof.
  intros Hbody. induction xs as [|x xs IH]; simpl; [apply never_raises_ret|].
  by apply (never_raises_bind (body x) (for_each xs body)).
Qed.

Lemma never_raises__emit text end_ : never_raises_Exception (G:=G) (_emit text end_).
Proof.
  intros [out raises g cb cs] e.
  unfold _emit, mbind, SE_bind, bind, try_except_Exception, print, call_callback,
    get, pass, ret; simpl.
  destruct (raises (text +:+ end_)) as [[m|m]|]; simpl;
    try (by intros [= <-]);
    (destruct cb as [f|]; simpl; [|done]);
    destruct (f text g) as [g' [[m'|m']|]]; simpl; try done; by intros [= <-].
Qed.

Lemma never_raises_run_print r : never_raises_Exception (G:=G) (run_print r).
Proof.
  destruct r as [t|t|t|t|t|t|c n t|t|n]; simpl; try apply never_raises__emit.
  - repeat (apply never_raises_bind; [apply never_raises__emit|]).
    apply never_raises__emit.
  - unfold print_progress. case_bool_decide; apply never_raises__emit.
  - apply never_raises_bind; apply never_raises__emit.
  - apply never_raises_bind; [|apply never_raises__emit].
    apply never_raises_for_each. intros i.
    apply never_raises_bind; [apply never_raises__emit | apply never_raises_ret].
Qed.

Lemma only_appends_ret : only_appends (G:=G) (ret tt).
Proof. by intros w. Qed.

Lemma only_appends_bind (m1 m2 : M G unit) :
  only_appends m1 → only_appends m2 → only_appends (m1 ;; m2).
Proof.
  intros H1 H2 w. unfold mbind, SE_bind, bind.
  destruct (H1 w) as (Hc & Hr & Ho & Hh).
  destruct (m1 w) as [[[]|e1] w1]; simpl in *; [|done].
  destruct (H2 w1) as (Hc2 & Hr2 & Ho2 & Hh2).
  rewrite Hc2, Hr2. repeat split; try done; by etrans.
Qed.

Lemma only_appends_for_each {A} (xs : list A) (body : A → M G unit) :
  (∀ x, only_appends (body x)) → only_appends (for_each xs body).
Proof.
  intros Hbody. induction xs as [|x xs IH]; simpl; [apply only_appends_ret|].
  by apply (only_appends_bind (body x) (for_each xs body)).
Qed.

Lemma only_appends__emit text end_ : only_appends (G:=G) (_emit text end_).
Proof.
  intros [out raises g cb cs].
  unfold _emit, mbind, SE_bind, bind, try_except_Exception, print, call_callback,
    get, pass, ret; simpl.
  destruct (raises (text +:+ end_)) as [[m|m]|]; simpl;
    try (repeat split; try done; by apply prefix_app_r);
    (destruct cb as [f|]; simpl;
     [destruct (f text g) as [g' [[m'|m']|]]; simpl|]);
    repeat split; try done;
    try (by apply prefix_app_r); by do 2 apply prefix_app_r.
Qed.

Lemma only_appends_run_print r : only_appends (G:=G) (run_print r).
Proof.
  destruct r as [t|t|t|t|t|t|c n t|t|n]; simpl; try apply only_appends__emit.
  - repeat (apply only_appends_bind; [apply only_appends__emit|]).
    apply only_appends__emit.
  - unfold print_progress. case_bool_decide; apply only_appends__emit.
  - apply only_appends_bind; apply only_appends__emit.
  - apply only_appends_bind; [|apply only_appends__emit].
    apply only_appends_for_each. intros i.
    apply only_appends_bind; [apply only_appends__emit | apply only_appends_ret].
Qed.
End PrintLawsFacts.

(** X1. Whatever the console and the callback do, no function of the print
    API lets an instance of [Exception] out: what it raises, if anything, is
    a [BaseException] outside [Exception]. *)
Theorem print_api_never_raises_Exception {G} (r : PrintUtils.print_request)
    (w : PrintUtils.world G) (e : exn) :
  (PrintUtils.run_print r w).1 = Raise e → isinstance_Exception e = false.
Proof. apply never_raises_run_print. Qed.

Lemma print_api_never_raises_Exception_witness :
  let w := PrintUtils.World (G:=list string) [] (λ _, None) []
             (Some (λ text g, (g, Some (BaseException "KeyboardInterrupt")))) [] in
  (PrintUtils.run_print (PrintUtils.Title "HeyTea") w).1
  = Raise (BaseException "KeyboardInterrupt")
  ∧ isinstance_Exception (BaseException "KeyboardInterrupt") = false.
Proof.
  intros w. split; [reflexivity|].
  apply (print_api_never_raises_Exception (PrintUtils.Title "HeyTea") w). reflexivity.
Defined.

(** X2. No function of the print API changes the registered callback or the
    console device, and none removes anything: what the console held and the
    history of sink calls are prefixes of what they are afterwards, whatever
    the sinks raise. *)
Theorem print_api_only_appends {G} (r : PrintUtils.print_request)
    (w : PrintUtils.world G) :
  let w' := (PrintUtils.run_print r w).2 in
  PrintUtils._gui_callback w' = PrintUtils._gui_callback w
  ∧ PrintUtils.stdout_raises w' = PrintUtils.stdout_raises w
  ∧ PrintUtils.stdout w `prefix_of` PrintUtils.stdout w'
  ∧ PrintUtils.calls w `prefix_of` PrintUtils.calls w'.
Proof. apply only_appends_run_print. Qed.

(** *** The countdown *)

Lemma range_down_to_1_nonpositive seconds :
  seconds ≤ 0 → PrintUtils.range_down_to_1 seconds = [].
Proof.
  intros Hle. unfold PrintUtils.range_down_to_1.
  by replace (Z.to_nat seconds) with 0%nat by lia.
Qed.

Lemma range_down_to_1_lookup seconds (i : nat) :
  (i < Z.to_nat seconds)%nat →
  PrintUtils.range_down_to_1 seconds !! i = Some (seconds - Z.of_nat i).
Proof.
  intros Hi. unfold PrintUtils.range_down_to_1.
  rewrite list_lookup_fmap, lookup_seq_lt by done. done.
Qed.

Lemma range_down_to_1_length seconds :
  length (PrintUtils.range_down_to_1 seconds) = Z.to_nat seconds.
Proof. unfold PrintUtils.range_down_to_1. by rewrite length_fmap, length_seq. Qed.

(** X3. With sinks that raise nothing but instances of [Exception],
    [print_countdown seconds] prints one tick for each of [seconds],
    [seconds - 1], ..., [1], in this order and each ended by a carriage
    return, and then the start message ended by a line feed; for [seconds] at
    most [0] it prints the start message alone. *)
Theorem print_countdown_counts_down {G} (seconds : Z) (w : PrintUtils.world G) :
  PrintUtils.benign w →
  let registered := bool_decide (is_Some (PrintUtils._gui_callback w)) in
  let ticks := PrintUtils.range_down_to_1 seconds in
  let w' := (PrintUtils.print_countdown seconds w).2 in
  (PrintUtils.print_countdown seconds w).1 = Return tt
  ∧ PrintUtils.calls w'
    = PrintUtils.calls w
      ++ PrintUtils.emitted registered
           (((λ i, (PrintLaws.tick i, CR)) <$> ticks) ++ [("  开始！  ", LF)])
  ∧ length ticks = Z.to_nat seconds
  ∧ (∀ i : nat, (i < Z.to_nat seconds)%nat → ticks !! i = Some (seconds - Z.of_nat i))
  ∧ (seconds ≤ 0 → ticks = []).
Proof.
  intros Hw. pose proof (emits_run_print (PrintUtils.Countdown seconds) w Hw) as Hrun.
  change (PrintUtils.run_print (PrintUtils.Countdown seconds) w)
    with (PrintUtils.print_countdown seconds w) in Hrun.
  cbv zeta. rewrite Hrun.
  split; [done|]. split; [done|].
  split; [apply range_down_to_1_length|].
  split; [apply range_down_to_1_lookup | apply range_down_to_1_nonpositive].
Qed.

Lemma print_countdown_counts_down_witness :
  let w := PrintUtils.World (G:=list string) [] (λ _, None) [] None [] in
  PrintUtils.printed_texts (PrintUtils.calls (PrintUtils.print_countdown 3 w).2)
  = ["  3..."; "  2..."; "  1..."; "  开始！  "].
Proof.
  intros w.
  destruct (print_countdown_counts_down 3 w) as (_ & Hcalls & _).
  - split; simpl; intros; discriminate.
  - rewrite Hcalls. reflexivity.
Defined.

(** ** From the print API to the log of the GUI *)

Lemma deliver_proxy (g : Gui.HeyTeaGUI) (texts : list string) :
  foldl (λ g text, (Gui._gui_log_proxy text g).1) g texts
  = Gui.set_after_queue (Gui.after_queue g ++ texts) g.
Proof.
  revert g. induction texts as [|t texts IH]; intros g; simpl.
  - destruct g; simpl. by rewrite app_nil_r.
  - rewrite IH. destruct g; simpl. by rewrite <- app_assoc.
Qed.

Lemma mainloop_after_drains (queue : list string) (p : Gui.process) :
  Gui.after_queue (Gui.self p) = queue →
  GuiLaws.mainloop_after (length queue) p
  = (Return tt,
     Gui.Process
       (Gui.GUI (Gui.config_data (Gui.self p)) (Gui.image_path (Gui.self p))
                (Gui.algorithm_var (Gui.self p)) (Gui.start_btn (Gui.self p))
                (Gui.log_text (Gui.self p) ++ ((λ t, t +:+ LF) <$> queue)) [])
       (Gui.config_file p)).
Proof.
  revert p. induction queue as [|msg queue IH]; intros p Hq.
  - destruct p as [[cfg path algo btn log q] file]; simpl in *. subst q.
    by rewrite app_nil_r.
  - simpl. rewrite (bind_Return _ _ _ _ _ (run_after_appends_log p msg queue Hq)).
    rewrite IH by (by destruct p as [[] ?]).
    destruct p as [[cfg path algo btn log q] file]; simpl.
    by rewrite <- app_assoc.
Qed.

(** X4. Once [_build_ui] has registered the proxy, and with a console that
    raises nothing but instances of [Exception], the texts that a function of
    the print API prints are scheduled for the log in the order printed, and
    when the main loop has run the scheduled callbacks the log holds them
    after what it held, in that order, each followed by a line feed, and
    nothing is left scheduled. *)
Theorem printed_texts_reach_the_log_in_order (r : PrintUtils.print_request)
    (w : PrintUtils.world Gui.HeyTeaGUI) (file : config) :
  (∀ chunk e, PrintUtils.stdout_raises w chunk = Some e →
              isinstance_Exception e = true) →
  ∃ texts : list string,
    let w' := (PrintUtils.run_print r (Gui._build_ui w).2).2 in
    let p' := (GuiLaws.mainloop_after
                 (length (Gui.after_queue (PrintUtils.gui w')))
                 (Gui.Process (PrintUtils.gui w') file)).2 in
    PrintUtils.printed_texts (PrintUtils.calls w')
    = PrintUtils.printed_texts (PrintUtils.calls w) ++ texts
    ∧ Gui.after_queue (PrintUtils.gui w')
      = Gui.after_queue (PrintUtils.gui w) ++ texts
    ∧ Gui.log_text (Gui.self p')
      = Gui.log_text (PrintUtils.gui w)
        ++ ((λ t, t +:+ LF) <$> (Gui.after_queue (PrintUtils.gui w) ++ texts))
    ∧ Gui.after_queue (Gui.self p') = [].
Proof.
  intros Hout. exists (PrintUtils.messages r).*1.
  destruct w as [out raises g cb cs]; simpl in Hout.
  set (w1 := PrintUtils.World out raises g (Some Gui._gui_log_proxy) cs).
  assert (PrintUtils.benign w1) as Hw1.
  { split; [exact Hout|]. intros cb' text g' e [= <-]. discriminate. }
  change ((Gui._build_ui (PrintUtils.World out raises g cb cs)).2) with w1.
  rewrite (emits_run_print r w1 Hw1). simpl.
  rewrite deliver_proxy.
  assert (Gui.after_queue
            (Gui.set_after_queue (Gui.after_queue g ++ (PrintUtils.messages r).*1) g)
          = Gui.after_queue g ++ (PrintUtils.messages r).*1) as Hq by (by destruct g).
  rewrite Hq, mainloop_after_drains by (by destruct g).
  unfold PrintUtils.printed_texts at 1. rewrite omap_app.
  fold (PrintUtils.printed_texts cs).
  fold (PrintUtils.printed_texts (PrintUtils.emitted true (PrintUtils.messages r))).
  rewrite printed_texts_emitted. by destruct g.
Qed.

Lemma printed_texts_reach_the_log_in_order_witness :
  let w := PrintUtils.World [] (λ _, Some (Exception "OSError"))
             (Gui.self (Gui.__init__ ∅)) None [] in
  ∃ texts : list string,
    let w' := (PrintUtils.run_print (PrintUtils.Section_ "轮廓") (Gui._build_ui w).2).2 in
    let p' := (GuiLaws.mainloop_after
                 (length (Gui.after_queue (PrintUtils.gui w')))
                 (Gui.Process (PrintUtils.gui w') ∅)).2 in
    PrintUtils.printed_texts (PrintUtils.calls w') = texts
    ∧ Gui.log_text (Gui.self p') = (λ t, t +:+ LF) <$> texts.
Proof.
  intros w.
  destruct (printed_texts_reach_the_log_in_order (PrintUtils.Section_ "轮廓") w ∅)
    as (texts & Hprinted & _ & Hlog & _).
  - simpl. intros chunk e [= <-]. reflexivity.
  - exists texts. split; [exact Hprinted | exact Hlog].
Defined.

(** ** The worker *)

(** X5. Whatever the drawer does, [run_draw] ends with the start button
    enabled and leaves the configuration, the configuration file and the
    selected image as they were. When the drawer returns, the log gains the
    line of completion and [run_draw] returns; when it raises an instance of
    [Exception], the log gains the error line with the message and
    [run_draw] still returns; any other [BaseException] leaves no line and
    goes on to the caller, after the button is enabled. *)
Theorem run_draw_outcomes (algo : string)
    (drawer_run : Gui.drawer → config → option string → result unit) (p : Gui.process) :
  let outcome := drawer_run (Gui.choose_drawer algo) (Gui.config_data (Gui.self p))
                            (Gui.image_path (Gui.self p)) in
  let p' := (Gui.run_draw algo drawer_run p).2 in
  Gui.start_btn (Gui.self p') = Gui.NORMAL
  ∧ Gui.config_data (Gui.self p') = Gui.config_data (Gui.self p)
  ∧ Gui.config_file p' = Gui.config_file p
  ∧ Gui.image_path (Gui.self p') = Gui.image_path (Gui.self p)
  ∧ Gui.log_text (Gui.self p')
    = Gui.log_text (Gui.self p) ++ GuiLaws.run_draw_log outcome
  ∧ (Gui.run_draw algo drawer_run p).1
    = match outcome with
      | Return _ => Return tt
      | Raise e => if isinstance_Exception e then Return tt else Raise e
      end.
Proof.
  destruct p as [[cfg path algo' btn log queue] file].
  unfold Gui.run_draw, try_finally, try_except_Exception, mbind, SE_bind, bind, get,
    modify; simpl.
  destruct (drawer_run (Gui.choose_drawer algo) cfg path) as [[]|[m|m]]; simpl;
    by rewrite ?app_nil_r.
Qed.

(** ** What every handler keeps *)

Section Respects.
Import Gui GuiLaws.
Variable R : relation HeyTeaGUI.
Hypothesis HR : tolerates R.

Lemma R_refl g : R g g.
Proof. apply (tolerates_preorder R HR). Qed.

Lemma R_trans g1 g2 g3 : R g1 g2 → R g2 g3 → R g1 g3.
Proof. apply (tolerates_preorder R HR). Qed.

Lemma respects_ret {A} (a : A) : respects R (ret a).
Proof. intros p. apply R_refl. Qed.

Lemma respects_outcome {A} (r : result A) : respects R (λ p, (r, p)).
Proof. intros p. apply R_refl. Qed.

Lemma respects_bind {A B} (m : SE process A) (k : A → SE process B) :
  respects R m → (∀ a, respects R (k a)) → respects R (m ≫= k).
Proof.
  intros Hm Hk p. unfold mbind, SE_bind, bind. specialize (Hm p).
  destruct (m p) as [[a|e] p1]; simpl in *; [|done].
  eapply R_trans; [exact Hm | apply Hk].
Qed.

Lemma respects_try_except {A} (m : SE process A) (h : exn → SE process A) :
  respects R m → (∀ e, respects R (h e)) → respects R (try_except_Exception m h).
Proof.
  intros Hm Hh p. unfold try_except_Exception. specialize (Hm p).
  destruct (m p) as [[a|e] p1]; simpl in *; [done|].
  destruct (isinstance_Exception e); [|done].
  eapply R_trans; [exact Hm | apply Hh].
Qed.

Lemma respects_for_each {A} (xs : list A) (body : A → SE process unit) :
  (∀ x, respects R (body x)) → respects R (for_each xs body).
Proof.
  intros Hbody. induction xs as [|x xs IH]; [apply respects_ret|].
  apply (respects_bind (body x) (λ _, for_each xs body)); auto.
Qed.

Lemma respects_modify_self (f : HeyTeaGUI → HeyTeaGUI) :
  (∀ g, R g (f g)) → respects R (modify (set_self f)).
Proof. intros Hf [g file]. apply Hf. Qed.

Lemma respects_append_log text : respects R (append_log text).
Proof. apply respects_modify_self, (tolerates_log_text R HR). Qed.

Lemma respects_save_config : respects R save_config.
Proof. intros [g file]. simpl. apply R_refl. Qed.

Lemma respects_load_config :
  respects R (modify (λ p, set_self (set_config_data
                                       (ConfigUtils.load_config (config_file p))) p)).
Proof. intros [g file]. apply (tolerates_config_data R HR). Qed.

Lemma respects_config_data_setitem section key val :
  respects R (config_data_setitem section key val).
Proof.
  intros [g file]. unfold config_data_setitem, mbind, SE_bind, bind, get; simpl.
  destruct (config_data g !! section); simpl; [|apply R_refl].
  apply (tolerates_config_data R HR).
Qed.

Lemma respects_save_and_close eval es : respects R (save_and_close eval es).
Proof.
  unfold save_and_close, save_entries.
  apply respects_bind; [|intros _; apply respects_bind; [apply respects_save_config|]].
  - apply respects_for_each. intros [[section key] raw].
    apply respects_bind; [|intros v; apply respects_config_data_setitem].
    apply respects_try_except; [intros p; apply R_refl | intros _; apply respects_ret].
  - intros _. apply respects_append_log.
Qed.

Lemma respects_refresh_config : respects R refresh_config.
Proof.
  apply respects_bind; [apply respects_load_config | intros _; apply respects_append_log].
Qed.

Lemma respects_run_after : respects R run_after.
Proof.
  intros [g file]. unfold run_after, mbind, SE_bind, bind, get; simpl.
  destruct (after_queue g) as [|msg rest]; simpl; [apply R_refl|].
  eapply R_trans; [apply (tolerates_after_queue R HR rest) | apply (tolerates_log_text R HR)].
Qed.

Lemma respects_run_draw_leave outcome : respects R (run_draw_leave outcome).
Proof.
  apply respects_try_except.
  - apply respects_bind; [apply respects_outcome | intros _; apply respects_append_log].
  - intros e. apply respects_append_log.
Qed.

Lemma respects_do_reset defaults : respects R (do_reset defaults).
Proof.
  apply respects_try_except; [|intros e; apply respects_append_log].
  apply respects_bind; [intros [g file]; simpl; apply R_refl|]. intros _.
  apply respects_bind; [apply respects_load_config | intros _; apply respects_append_log].
Qed.

Lemma respects_do_capture captured : respects R (do_capture captured).
Proof.
  apply respects_try_except; [|intros e; apply respects_append_log].
  apply respects_bind; [apply respects_outcome|]. intros [[[X Y] W] H].
  apply respects_bind; [intros p; apply R_refl|]. intros p.
  apply respects_bind;
    [apply respects_modify_self; intros g; apply (tolerates_config_data R HR)|].
  intros _. apply respects_bind; [apply respects_save_config|].
  intros _. apply respects_append_log.
Qed.

Lemma respects_reselect_board : respects R reselect_board.
Proof.
  apply respects_bind; [apply respects_append_log | intros _; apply respects_ret].
Qed.

Lemma respects_reset_config_action confirmed : respects R (reset_config_action confirmed).
Proof. destruct confirmed; apply respects_ret. Qed.

Lemma respects_start_drawing :
  (∀ st g, R g (start_btn_config st g)) → respects R start_drawing.
Proof.
  intros Hbtn [g file]. unfold start_drawing, mbind, SE_bind, bind, get; simpl.
  destruct (truthy (image_path g)); simpl; [|apply R_refl].
  eapply R_trans; [apply (tolerates_log_text R HR) | apply Hbtn].
Qed.

Lemma respects_open_file file_path opened drawn :
  (∀ path g, R g (set_image_path path g)) →
  respects R (open_file file_path opened drawn).
Proof.
  intros Hpath. unfold open_file. case_bool_decide; [apply respects_ret|].
  apply respects_try_except; [|intros e; apply respects_ret].
  apply respects_bind; [apply respects_outcome|]. intros _.
  apply respects_bind; [apply respects_modify_self, Hpath|]. intros _.
  apply respects_bind; [apply respects_append_log|]. intros _.
  apply respects_bind; [apply respects_outcome | intros _; apply respects_ret].
Qed.

Lemma proc_handle (h : SE process (list request)) s : proc (handle h s) = (h (proc s)).2.
Proof.
  unfold handle. destruct (h (proc s)) as [[rs|e] p']; simpl; [|done].
  by destruct (start_threads rs (threads s) (next_ident s)).
Qed.

(** Every step of the process, provided [R] also holds across what the
    remaining handlers change. *)
Lemma step_respects eval defaults e s s' :
  (∀ st g, R g (start_btn_config st g)) →
  (∀ file_path opened drawn, respects R (open_file file_path opened drawn)) →
  (∀ algo g, algo ∈ algorithms → R g (set_algorithm_var algo g)) →
  step eval defaults e s = Some s' →
  R (self (proc s)) (self (proc s')).
Proof.
  intros Hbtn Hopen Halgo.
  destruct e as [file_path opened drawn|algo| | |es|confirmed| | |t|t outcome|t|t captured|t];
    simpl; intros Hstep.
  - injection Hstep as <-. rewrite proc_handle. apply Hopen.
  - case_bool_decide; [|done]. injection Hstep as <-.
    destruct s as [[g file] ths next]; simpl. by apply Halgo.
  - case_bool_decide; [|done]. injection Hstep as <-. rewrite proc_handle.
    by apply respects_start_drawing.
  - injection Hstep as <-. rewrite proc_handle.
    apply (respects_bind refresh_config); [apply respects_refresh_config|].
    intros _; apply respects_ret.
  - injection Hstep as <-. rewrite proc_handle.
    apply (respects_bind (save_and_close eval es)); [apply respects_save_and_close|].
    intros _; apply respects_ret.
  - injection Hstep as <-. rewrite proc_handle. apply respects_reset_config_action.
  - injection Hstep as <-. rewrite proc_handle. apply respects_reselect_board.
  - injection Hstep as <-. rewrite proc_handle.
    apply (respects_bind run_after); [apply respects_run_after|].
    intros _; apply respects_ret.
  - destruct (threads s !! t) as [[algo| | | |]|]; try done.
    injection Hstep as <-. simpl. apply R_refl.
  - destruct (threads s !! t) as [[|d cfg path| | |]|]; try done.
    injection Hstep as <-. apply respects_run_draw_leave.
  - destruct (threads s !! t) as [[| | | |]|]; try done.
    injection Hstep as <-. destruct s as [[g file] ths next]; simpl. apply Hbtn.
  - destruct (threads s !! t) as [[| | | |]|]; try done.
    injection Hstep as <-. apply respects_do_capture.
  - destruct (threads s !! t) as [[| | | |]|]; try done.
    injection Hstep as <-. apply respects_do_reset.
Qed.
End Respects.

(** ** The log only grows *)

Lemma tolerates_log_prefix :
  GuiLaws.tolerates (λ g g', Gui.log_text g `prefix_of` Gui.log_text g').
Proof.
  split.
  - split; [intros g; reflexivity | intros g1 g2 g3 H1 H2; by etrans].
  - by intros cfg [].
  - intros line []. simpl. by apply prefix_app_r.
  - by intros q [].
Qed.

(** X6. No event of the process removes or changes a line of the log:
    across any sequence of events that can happen, what the log held is a
    prefix of what it holds afterwards. *)
Theorem log_only_grows (eval : Gui.evaluator) (defaults : config)
    (es : list Gui.event) (s s' : Gui.system) :
  Gui.run eval defaults es s = Some s' →
  Gui.log_text (Gui.self (Gui.proc s)) `prefix_of` Gui.log_text (Gui.self (Gui.proc s')).
Proof.
  revert s. induction es as [|e es IH]; intros s Hrun; simpl in Hrun.
  - by injection Hrun as <-.
  - destruct (Gui.step eval defaults e s) as [s1|] eqn:Hstep; [|done].
    etrans; [|by apply IH].
    apply (step_respects _ tolerates_log_prefix eval defaults e s s1); try done.
    intros file_path opened drawn. apply respects_open_file; [apply tolerates_log_prefix|].
    by intros path [].
Qed.

Lemma log_only_grows_witness :
  let s := Gui.initial Config.CONFIG in
  let s' := Gui.after Gui.eval_on_samples Config.CONFIG Gui.sample_session s in
  Gui.log_text (Gui.self (Gui.proc s)) `prefix_of` Gui.log_text (Gui.self (Gui.proc s')).
Proof.
  intros s s'.
  apply (log_only_grows Gui.eval_on_samples Config.CONFIG Gui.sample_session s s').
  apply run_after. apply (bool_decide_unpack _). vm_compute. exact I.
Defined.

(** ** Where the threads come from *)

Section Provenance.
Import Gui GuiLaws.
Variable eval : evaluator.
Variable defaults : config.

Lemma threads_handle_unit (m : SE process unit) s :
  threads (handle (m ;; ret []) s) = threads s.
Proof. by rewrite handle_unit. Qed.

(** A thread found after a step was there before, or has just been started,
    or has moved on by one piece of [run_draw]. *)
Lemma step_threads e s s' t pc' :
  step eval defaults e s = Some s' → threads s' !! t = Some pc' →
  threads s !! t = Some pc'
  ∨ pc' = reset_started
  ∨ pc' = capture_started
  ∨ (pc' = draw_started (algorithm_var (self (proc s)))
     ∧ truthy (image_path (self (proc s))) = true)
  ∨ (∃ algo, threads s !! t = Some (draw_started algo)
             ∧ pc' = draw_running (choose_drawer algo) (config_data (self (proc s)))
                                  (image_path (self (proc s))))
  ∨ (∃ d cfg path, threads s !! t = Some (draw_running d cfg path) ∧ pc' = draw_finally).
Proof.
  destruct e as [file_path opened drawn|algo| | |es|confirmed| | |t0|t0 outcome|t0|t0 captured|t0];
    simpl; intros Hstep Hl.
  - injection Hstep as <-.
    rewrite (proj1 (threads_handle_open_file _ _ _ _)) in Hl. by left.
  - case_bool_decide; [|done]. injection Hstep as <-. by left.
  - case_bool_decide; [|done]. injection Hstep as <-.
    destruct s as [[g file] ths next]; simpl in *.
    unfold handle, start_drawing, mbind, SE_bind, bind, get in Hl; simpl in Hl.
    destruct (truthy (image_path g)) eqn:Hpath; simpl in Hl; [|by left].
    destruct (decide (next = t)) as [<-|Hne].
    + rewrite lookup_insert_eq in Hl. injection Hl as <-. right; right; right; left. done.
    + rewrite lookup_insert_ne in Hl by done. by left.
  - injection Hstep as <-. rewrite threads_handle_unit in Hl. by left.
  - injection Hstep as <-. rewrite threads_handle_unit in Hl. by left.
  - injection Hstep as <-. destruct confirmed; simpl in Hl; [|by left].
    destruct (decide (next_ident s = t)) as [<-|Hne].
    + rewrite lookup_insert_eq in Hl. injection Hl as <-. right; left. done.
    + rewrite lookup_insert_ne in Hl by done. by left.
  - injection Hstep as <-. simpl in Hl.
    destruct (decide (next_ident s = t)) as [<-|Hne].
    + rewrite lookup_insert_eq in Hl. injection Hl as <-. right; right; left. done.
    + rewrite lookup_insert_ne in Hl by done. by left.
  - injection Hstep as <-. rewrite threads_handle_unit in Hl. by left.
  - destruct (threads s !! t0) as [[algo| | | |]|] eqn:Hl0; try done.
    injection Hstep as <-. simpl in Hl.
    destruct (decide (t0 = t)) as [<-|Hne].
    + rewrite lookup_insert_eq in Hl. injection Hl as <-.
      do 4 right; left. by exists algo.
    + rewrite lookup_insert_ne in Hl by done. by left.
  - destruct (threads s !! t0) as [[|d cfg path| | |]|] eqn:Hl0; try done.
    injection Hstep as <-. simpl in Hl.
    destruct (decide (t0 = t)) as [<-|Hne].
    + rewrite lookup_insert_eq in Hl. injection Hl as <-.
      do 5 right. by exists d, cfg, path.
    + rewrite lookup_insert_ne in Hl by done. by left.
  - destruct (threads s !! t0) as [[| | | |]|] eqn:Hl0; try done.
    injection Hstep as <-. simpl in Hl. apply lookup_delete_Some in Hl as [_ Hl]. by left.
  - destruct (threads s !! t0) as [[| | | |]|] eqn:Hl0; try done.
    injection Hstep as <-. simpl in Hl. apply lookup_delete_Some in Hl as [_ Hl]. by left.
  - destruct (threads s !! t0) as [[| | | |]|] eqn:Hl0; try done.
    injection Hstep as <-. simpl in Hl. apply lookup_delete_Some in Hl as [_ Hl]. by left.
Qed.
End Provenance.

(** ** The image and the algorithm of a run *)

Section RunInputs.
Import Gui GuiLaws.
Variable eval : evaluator.
Variable defaults : config.

Lemma truthy_image_selected path : truthy path = true ↔ image_selected path.
Proof.
  unfold truthy, image_selected. destruct path as [f|]; split.
  - intros Hne%bool_decide_eq_true. by exists f.
  - intros (f' & Hne & [= ->]). by apply bool_decide_eq_true.
  - done.
  - by intros (f' & _ & ?).
Qed.

Lemma tolerates_keeps_image : tolerates keeps_image.
Proof.
  split.
  - split; [by intros g | intros g1 g2 g3 [H1 H1'] [H2 H2']; split; auto].
  - by intros cfg [].
  - by intros line [].
  - by intros q [].
Qed.

Lemma tolerates_keeps_algorithm : tolerates keeps_algorithm.
Proof.
  split.
  - split; [intros g Hg; exact Hg | intros g1 g2 g3 H1 H2 Hg; exact (H2 (H1 Hg))].
  - intros cfg [] Hg. exact Hg.
  - intros line [] Hg. exact Hg.
  - intros q [] Hg. exact Hg.
Qed.

Lemma open_file_keeps_image file_path opened drawn :
  respects keeps_image (open_file file_path opened drawn).
Proof.
  intros [[cfg path algo btn log queue] file]. unfold open_file.
  case_bool_decide as Hempty; [done|].
  assert (image_selected (Some file_path)) as Hsel by (by exists file_path).
  destruct opened as [[]|[m|m]]; simpl; try done;
    destruct drawn as [[]|[m'|m']]; simpl; split; intros _; (by right) || done.
Qed.

Lemma step_keeps_image e s s' :
  step eval defaults e s = Some s' → keeps_image (self (proc s)) (self (proc s')).
Proof.
  apply (step_respects _ tolerates_keeps_image).
  - by intros st [].
  - apply open_file_keeps_image.
  - by intros algo [] _.
Qed.

Lemma step_keeps_algorithm e s s' :
  step eval defaults e s = Some s' → keeps_algorithm (self (proc s)) (self (proc s')).
Proof.
  apply (step_respects _ tolerates_keeps_algorithm).
  - intros st [] Hg. exact Hg.
  - intros file_path opened drawn.
    apply respects_open_file; [apply tolerates_keeps_algorithm|].
    intros path [] Hg. exact Hg.
  - intros algo [] Halgo _. exact Halgo.
Qed.

Lemma image_ready_step e s s' :
  step eval defaults e s = Some s' → image_ready s → image_ready s'.
Proof.
  intros Hstep (Hsound & Hrun & Hgiven).
  destruct (step_keeps_image e s s' Hstep) as [Hk1 Hk2].
  assert (∀ t pc', threads s' !! t = Some pc' → is_draw pc' = true →
            image_selected (image_path (self (proc s)))
            ∧ ∀ d cfg path, pc' = draw_running d cfg path → image_selected path) as Hall.
  { intros t pc' Hl Hd.
    destruct (step_threads eval defaults e s s' t pc' Hstep Hl)
      as [Hold|[->|[->|[[-> Hpath]|[(algo & Hold & ->)|(d & cfg & path & Hold & ->)]]]]];
      try done.
    - split; [apply (Hrun t); by exists pc'|].
      intros d cfg path ->. by apply (Hgiven t d cfg path).
    - split; [by apply truthy_image_selected | done].
    - assert (image_selected (image_path (self (proc s)))) as Hsel
        by (apply (Hrun t); by exists (draw_started algo)).
      split; [done|]. by intros d cfg path [= _ _ <-].
    - split; [|done]. apply (Hrun t). by exists (draw_running d cfg path). }
  split; [by apply Hk1|]. split.
  - intros t (pc' & Hl & Hd). apply Hk2. by apply (Hall t pc').
  - intros t d cfg path Hl.
    destruct (Hall t (draw_running d cfg path) Hl eq_refl) as [_ Hpath].
    by apply (Hpath d cfg path).
Qed.

Lemma image_ready_reachable file s : reachable eval defaults file s → image_ready s.
Proof.
  induction 1 as [|s e s' _ IH Hstep]; [|by apply (image_ready_step e s)].
  split; [by left|]. split.
  - intros t (pc & Hl & _). simpl in Hl. by rewrite lookup_empty in Hl.
  - intros t d cfg path Hl. simpl in Hl. by rewrite lookup_empty in Hl.
Qed.

Lemma algorithm_known_step e s s' :
  step eval defaults e s = Some s' → algorithm_known s → algorithm_known s'.
Proof.
  intros Hstep [Hvar Hthreads]. split; [by apply (step_keeps_algorithm e s s')|].
  intros t algo Hl.
  destruct (step_threads eval defaults e s s' t _ Hstep Hl)
    as [Hold|[?|[?|[[[= ->] _]|[(algo' & _ & ?)|(d & cfg & path & _ & ?)]]]]];
    try done.
  by apply (Hthreads t).
Qed.

Lemma algorithm_known_reachable file s : reachable eval defaults file s → algorithm_known s.
Proof.
  induction 1 as [|s e s' _ IH Hstep]; [|by apply (algorithm_known_step e s)].
  split; [by left|]. intros t algo Hl. simpl in Hl. by rewrite lookup_empty in Hl.
Qed.
End RunInputs.

(** X7. In every state the process can reach, the image path is never the
    empty string; while a drawing run exists an image is selected; the path
    a drawer was handed is that of a selected image; and [start_drawing]
    answers with the warning exactly when no image has been opened. *)
Theorem drawer_gets_a_selected_image (eval : Gui.evaluator) (defaults file : config)
    (s : Gui.system) :
  Gui.reachable eval defaults file s →
  Gui.image_path (Gui.self (Gui.proc s)) ≠ Some ""
  ∧ (∀ t, Gui.drawing s t →
          ∃ f, f ≠ "" ∧ Gui.image_path (Gui.self (Gui.proc s)) = Some f)
  ∧ (∀ t d cfg path, Gui.threads s !! t = Some (Gui.draw_running d cfg path) →
          ∃ f, f ≠ "" ∧ path = Some f)
  ∧ ((Gui.start_drawing (Gui.proc s)).1
     = Return [Gui.showwarning "未选择图片" "请先通过 文件 -> 打开文件 选择图片。"]
     ↔ Gui.image_path (Gui.self (Gui.proc s)) = None).
Proof.
  intros Hreach.
  destruct (image_ready_reachable eval defaults file s Hreach) as (Hsound & Hrun & Hgiven).
  split; [|split; [exact Hrun|split; [exact Hgiven|]]].
  - intros Hempty. destruct Hsound as [Hnone|(f & Hne & Hf)]; congruence.
  - destruct s as [[g fl] ths next]; simpl in *.
    unfold Gui.start_drawing, mbind, SE_bind, bind, get; simpl.
    destruct Hsound as [->|Hsel]; [done|].
    pose proof Hsel as Htrue%truthy_image_selected. rewrite Htrue; simpl.
    destruct Hsel as (f & _ & ->). split; discriminate.
Qed.

Lemma drawer_gets_a_selected_image_witness :
  let s := Gui.after Gui.eval_on_samples Config.CONFIG Gui.sample_session
             (Gui.initial Config.CONFIG) in
  ∃ f, f ≠ "" ∧ Gui.image_path (Gui.self (Gui.proc s)) = Some f.
Proof.
  intros s.
  destruct (drawer_gets_a_selected_image Gui.eval_on_samples Config.CONFIG
              Config.CONFIG s) as (_ & Hrun & _).
  - apply (run_reachable _ _ _ Gui.sample_session (Gui.initial Config.CONFIG));
      [apply Gui.reachable_initial|].
    apply run_after. apply (bool_decide_unpack _). vm_compute. exact I.
  - apply (Hrun 1%nat). apply drawingb_drawing. vm_compute. reflexivity.
Defined.

(** X8. In every state the process can reach, the selected algorithm is one
    of the two entries of the menu, and so is the algorithm that a started
    run was given: the run of the edge drawer is one started with ["边缘"]
    selected, and the run of the scanline drawer one started with
    ["扫描线"] selected. *)
Theorem drawer_follows_the_menu (eval : Gui.evaluator) (defaults file : config)
    (s : Gui.system) :
  Gui.reachable eval defaults file s →
  Gui.algorithm_var (Gui.self (Gui.proc s)) ∈ ["边缘"; "扫描线"]
  ∧ (∀ t algo, Gui.threads s !! t = Some (Gui.draw_started algo) →
       (algo = "边缘" ∧ Gui.choose_drawer algo = Gui.AutoDrawerCanny)
       ∨ (algo = "扫描线" ∧ Gui.choose_drawer algo = Gui.AutoDrawerScan)).
Proof.
  intros Hreach.
  destruct (algorithm_known_reachable eval defaults file s Hreach) as [Hvar Hthreads].
  split; [exact Hvar|]. intros t algo Hl. specialize (Hthreads t algo Hl).
  apply elem_of_cons in Hthreads as [->|Hin]; [by left|].
  apply list_elem_of_singleton in Hin as ->. by right.
Qed.

Lemma drawer_follows_the_menu_witness :
  let s := Gui.after Gui.eval_on_samples Config.CONFIG
             [ Gui.ui_open_file "pic/cup.png" (Return tt) (Return tt);
               Gui.ui_select_algorithm "扫描线";
               Gui.ui_click_start ]
             (Gui.initial Config.CONFIG) in
  Gui.algorithm_var (Gui.self (Gui.proc s)) ∈ ["边缘"; "扫描线"].
Proof.
  intros s.
  apply (drawer_follows_the_menu Gui.eval_on_samples Config.CONFIG Config.CONFIG s).
  apply (run_reachable _ _ _
           [ Gui.ui_open_file "pic/cup.png" (Return tt) (Return tt);
             Gui.ui_select_algorithm "扫描线";
             Gui.ui_click_start ] (Gui.initial Config.CONFIG));
    [apply Gui.reachable_initial|].
  apply run_after. apply (bool_decide_unpack _). vm_compute. exact I.
Defined.

(** ** Choosing the board again *)

(** X9. When the capture returns a rectangle, [do_capture] returns, the four
    keys of [screen_config] hold the captured integers, every other key of
    [screen_config] and every other section is as before (a missing
    [screen_config] is created), the configuration file holds the resulting
    configuration, and the log gains one line. *)
Theorem do_capture_stores_the_rectangle (X Y W H : Z) (p : Gui.process) :
  let cfg := Gui.config_data (Gui.self p) in
  let p' := (Gui.do_capture (Return (X, Y, W, H)) p).2 in
  let cfg' := Gui.config_data (Gui.self p') in
  (Gui.do_capture (Return (X, Y, W, H)) p).1 = Return tt
  ∧ get_option cfg' "screen_config" "X_A" = Some (PInt X)
  ∧ get_option cfg' "screen_config" "Y_A" = Some (PInt Y)
  ∧ get_option cfg' "screen_config" "W" = Some (PInt W)
  ∧ get_option cfg' "screen_config" "H" = Some (PInt H)
  ∧ (∀ key, key ∉ ["X_A"; "Y_A"; "W"; "H"] →
       get_option cfg' "screen_config" key = get_option cfg "screen_config" key)
  ∧ (∀ section, section ≠ "screen_config" → cfg' !! section = cfg !! section)
  ∧ Gui.config_file p' = cfg'
  ∧ length (Gui.log_text (Gui.self p')) = S (length (Gui.log_text (Gui.self p))).
Proof.
  destruct p as [[cfg path algo btn log queue] file]. simpl.
  split; [done|].
  assert (∀ key, (cfg !!! "screen_config") !! key = get_option cfg "screen_config" key)
    as Htotal by (intros key; apply lookup_total_get_option).
  unfold get_option.
  case_bool_decide as Hmissing; rewrite lookup_insert_eq; simpl.
  - rewrite lookup_total_insert_eq.
    repeat split; try by simplify_map_eq.
    + intros key Hkey. rewrite !not_elem_of_cons in Hkey.
      destruct Hkey as (? & ? & ? & ? & _). rewrite Hmissing. by simplify_map_eq.
    + intros section Hne. by simplify_map_eq.
    + rewrite length_app. simpl. lia.
  - repeat split; try by simplify_map_eq.
    + intros key Hkey. rewrite !not_elem_of_cons in Hkey.
      destruct Hkey as (? & ? & ? & ? & _).
      rewrite !lookup_insert_ne by done. apply Htotal.
    + intros section Hne. by simplify_map_eq.
    + rewrite length_app. simpl. lia.
Qed.

Lemma do_capture_stores_the_rectangle_witness :
  let p' := (Gui.do_capture (Return (10, 20, 300, 400)) (Gui.__init__ ∅)).2 in
  get_option (Gui.config_data (Gui.self p')) "screen_config" "W" = Some (PInt 300)
  ∧ Gui.config_file p' = Gui.config_data (Gui.self p').
Proof.
  intros p'.
  destruct (do_capture_stores_the_rectangle 10 20 300 400 (Gui.__init__ ∅))
    as (_ & _ & _ & HW & _ & _ & _ & Hfile & _).
  split; [exact HW | exact Hfile].
Defined.

(** X10. When the capture raises, [do_capture] changes neither the
    configuration of the GUI nor the start button nor the selected image. An
    instance of [Exception] is reported by one line of the log, with its
    message, and [do_capture] returns; any other [BaseException] leaves no
    line and goes on to the caller. *)
Theorem do_capture_failure_keeps_configuration (e : exn) (p : Gui.process) :
  let p' := (Gui.do_capture (Raise e) p).2 in
  Gui.config_data (Gui.self p') = Gui.config_data (Gui.self p)
  ∧ Gui.start_btn (Gui.self p') = Gui.start_btn (Gui.self p)
  ∧ Gui.image_path (Gui.self p') = Gui.image_path (Gui.self p)
  ∧ Gui.log_text (Gui.self p')
    = Gui.log_text (Gui.self p)
      ++ (if isinstance_Exception e then [("重选画板失败: " +:+ str_exn e) +:+ LF] else [])
  ∧ (Gui.do_capture (Raise e) p).1
    = (if isinstance_Exception e then Return tt else Raise e).
Proof.
  destruct p as [[cfg path algo btn log queue] file], e as [m|m]; simpl;
    by rewrite ?app_nil_r.
Qed.

(** ** Saving an editor that was not touched *)

Section EditorFacts.
Variable str_other : pyval → string.
Variable eval : Gui.evaluator.

Lemma untouched_entries_elem cfg section key raw :
  ((section, key), raw) ∈ Editor.untouched_entries str_other cfg →
  ∃ params v, cfg !! section = Some params ∧ params !! key = Some v
              ∧ raw = Editor.str str_other v.
Proof.
  unfold Editor.untouched_entries. rewrite open_modify_config_elem.
  unfold get_option. intros [[v Hv] ->].
  destruct (cfg !! section) as [params|] eqn:Hs; [|done]. simpl in Hv.
  exists params, v. split; [done|]. split; [done|].
  simpl. rewrite Hv. simpl. by destruct v.
Qed.

Lemma store_entry_same (p : Gui.process) section key raw params v :
  Gui.config_data (Gui.self p) !! section = Some params → params !! key = Some v →
  Gui.typed_value eval p section key raw = v →
  Gui.store_entry eval p ((section, key), raw) = p.
Proof.
  intros Hs Hk Hv. destruct p as [[cfg path algo btn log queue] file]; simpl in *.
  rewrite Hv, (lookup_total_correct _ _ _ Hs), (insert_id params key v Hk).
  by rewrite (insert_id cfg section params Hs).
Qed.

Lemma foldl_store_same (es : Gui.entries) (p : Gui.process) :
  (∀ entry, entry ∈ es → Gui.store_entry eval p entry = p) →
  foldl (Gui.store_entry eval) p es = p.
Proof.
  induction es as [|entry es IH]; intros Hsame; [done|].
  simpl. rewrite (Hsame entry) by (by left). apply IH.
  intros entry' Hin. apply Hsame. by right.
Qed.

(** X11. Saving an editor just opened, with no text changed, leaves the
    configuration of the GUI as it is and writes it to the configuration
    file, provided every value comes back from the text that shows it (the
    text of a number or of a truth value evaluates to it; the text of a
    string is no valid expression, or evaluates to the string). *)
Theorem saving_untouched_editor_keeps_configuration (p : Gui.process) :
  Editor.reads_back str_other eval (Gui.config_data (Gui.self p)) →
  let es := Editor.untouched_entries str_other (Gui.config_data (Gui.self p)) in
  let p' := (Gui.save_and_close eval es p).2 in
  (Gui.save_and_close eval es p).1 = Return tt
  ∧ Gui.config_data (Gui.self p') = Gui.config_data (Gui.self p)
  ∧ Gui.config_file p' = Gui.config_data (Gui.self p).
Proof.
  intros Hback es p'.
  assert (Gui.savable eval p es) as Hsav.
  { split.
    - intros section key raw (params & v & Hs & _)%untouched_entries_elem. eauto.
    - intros q section key raw e (params & v & Hs & Hk & ->)%untouched_entries_elem He.
      specialize (Hback q section key v). unfold get_option in Hback.
      rewrite Hs in Hback; simpl in Hback. specialize (Hback Hk).
      rewrite He in Hback. by destruct Hback. }
  assert (foldl (Gui.store_entry eval) p es = p) as Hsame.
  { apply foldl_store_same. intros [[section key] raw] Hin.
    pose proof Hin as (params & v & Hs & Hk & ->)%untouched_entries_elem.
    apply (store_entry_same p section key _ params v Hs Hk).
    specialize (Hback p section key v). unfold get_option in Hback.
    rewrite Hs in Hback; simpl in Hback. specialize (Hback Hk).
    unfold Gui.typed_value.
    destruct (eval p section key (Editor.str str_other v)) as [v'|e];
      [done | by destruct Hback as [_ <-]]. }
  unfold p', Gui.save_and_close.
  rewrite (bind_Return _ _ _ _ _ (save_entries_foldl eval es p Hsav)), Hsame.
  by destruct p as [[] ?].
Qed.
End EditorFacts.

Lemma saving_untouched_editor_keeps_configuration_witness :
  let p := Gui.__init__ Editor.jitter_only in
  let es := Editor.untouched_entries (λ _, "") Editor.jitter_only in
  es = [(("draw_config", "ENABLE_JITTER"), "True")]
  ∧ Gui.config_data (Gui.self (Gui.save_and_close Gui.eval_on_samples es p).2)
    = Editor.jitter_only.
Proof.
  intros p es. split; [reflexivity|].
  apply (saving_untouched_editor_keeps_configuration (λ _, "") Gui.eval_on_samples p).
  intros q section key v Hv.
  change (get_option Editor.jitter_only section key = Some v) in Hv.
  unfold get_option, Editor.jitter_only in Hv.
  destruct (_ !! section) as [params|] eqn:Hs in Hv; [|done].
  apply lookup_singleton_Some in Hs as [<- <-]. simpl in Hv.
  apply lookup_singleton_Some in Hv as [<- <-]. reflexivity.
Defined.

(** Without this proviso the configuration does change: a string that reads
    as an expression comes back as the value of the expression. *)
Remark saving_untouched_editor_retypes_a_string :
  let cfg : config := {[ "draw_config" := {[ "NOTE" := PStr "2 * 3" ]} ]} in
  get_option
    (Gui.config_data
       (Gui.self (Gui.save_and_close Gui.eval_on_samples
                    (Editor.untouched_entries (λ _, "") cfg) (Gui.__init__ cfg)).2))
    "draw_config" "NOTE"
  = Some (PInt 6).
Proof. reflexivity. Qed.

(** ** The log widget stays read-only *)

(** X12. Whatever Tk raises on the calls of [append_log]: when the final
    [configure(state=DISABLED)] is carried out the widget ends disabled, so
    the user cannot edit the log; the log keeps what it held and gains the
    text with a line feed, or nothing. When no call fails [append_log]
    returns and the line is there. When the widget can be enabled and
    disabled but the insertion raises, the exception is not swallowed: it
    goes on to the caller, with the widget disabled and the log as it was. *)
Theorem append_log_leaves_the_log_read_only (fails : LogWidget.tk_call → option exn)
    (text : string) (w : LogWidget.text_widget) :
  let line := text +:+ LF in
  let r := (LogWidget.append_log fails text w).1 in
  let w' := (LogWidget.append_log fails text w).2 in
  (fails (LogWidget.configure Gui.DISABLED) = None → LogWidget.state w' = Gui.DISABLED)
  ∧ (LogWidget.content w' = LogWidget.content w
     ∨ LogWidget.content w' = LogWidget.content w ++ [line])
  ∧ ((∀ c, fails c = None) →
     r = Return tt ∧ LogWidget.content w' = LogWidget.content w ++ [line])
  ∧ (∀ e, fails (LogWidget.configure Gui.NORMAL) = None →
          fails (LogWidget.configure Gui.DISABLED) = None →
          fails (LogWidget.insert_END line) = Some e →
          r = Raise e ∧ LogWidget.content w' = LogWidget.content w
          ∧ LogWidget.state w' = Gui.DISABLED).
Proof.
  destruct w as [st held].
  unfold LogWidget.append_log, try_finally, try_except_Exception, mbind, SE_bind, bind,
    LogWidget.tk, pass, ret; simpl.
  split; [|split; [|split]].
  - intros Hd. rewrite Hd.
    destruct (fails (LogWidget.configure Gui.NORMAL)); simpl; [done|].
    destruct (fails (LogWidget.insert_END (text +:+ LF))); simpl; [done|].
    by destruct (fails LogWidget.see_END).
  - destruct (fails (LogWidget.configure Gui.NORMAL)); simpl.
    + left. by destruct (fails (LogWidget.configure Gui.DISABLED)) as [[m|m]|].
    + destruct (fails (LogWidget.insert_END (text +:+ LF))); simpl.
      * left. by destruct (fails (LogWidget.configure Gui.DISABLED)) as [[m|m]|].
      * right. destruct (fails LogWidget.see_END); simpl;
          by destruct (fails (LogWidget.configure Gui.DISABLED)) as [[m|m]|].
  - intros Hnone. by rewrite !Hnone.
  - intros e Hn Hd Hi. by rewrite Hn, Hd, Hi.
Qed.

Lemma append_log_leaves_the_log_read_only_witness :
  let fails := λ c, match c with
                    | LogWidget.insert_END _ => Some (Exception "TclError")
                    | _ => None
                    end in
  let w := LogWidget.TextWidget Gui.DISABLED ["已打开图片: pic/cup.png" +:+ LF] in
  (LogWidget.append_log fails "绘画完成" w).1 = Raise (Exception "TclError")
  ∧ LogWidget.state (LogWidget.append_log fails "绘画完成" w).2 = Gui.DISABLED.
Proof.
  intros fails w.
  destruct (append_log_leaves_the_log_read_only fails "绘画完成" w)
    as (_ & _ & _ & Hinsert).
  destruct (Hinsert (Exception "TclError")) as (Hr & _ & Hstate); try reflexivity.
  split; [exact Hr | exact Hstate].
Defined.

(** ** Drawing on the canvas *)

Section CanvasFacts.
Variable thumbnail : Canvas.image → Z * Z → Canvas.image.

Lemma resizes_snoc v sizes size :
  Canvas.resizes thumbnail v (sizes ++ [size])
  = Canvas._on_canvas_resize thumbnail (Canvas.resizes thumbnail v sizes) size.
Proof. unfold Canvas.resizes. by rewrite foldl_app. Qed.

Lemma resizes_image_pil v sizes :
  Canvas.image_pil (Canvas.resizes thumbnail v sizes) = Canvas.image_pil v.
Proof.
  revert v. induction sizes as [|size sizes IH]; intros v; [done|].
  unfold Canvas.resizes in *. simpl. rewrite IH.
  unfold Canvas._on_canvas_resize, Canvas._draw_image_on_canvas; simpl.
  destruct (Canvas.image_pil v); [|done]. by case_bool_decide.
Qed.

End CanvasFacts.

(** ** A whole run *)

Lemma click_starts_run (eval : Gui.evaluator) (defaults : config) (s : Gui.system) :
  Gui.start_btn (Gui.self (Gui.proc s)) = Gui.NORMAL →
  Gui.truthy (Gui.image_path (Gui.self (Gui.proc s))) = true →
  Gui.step eval defaults Gui.ui_click_start s
  = Some (Gui.System
            (Gui.set_self
               (λ g, Gui.start_btn_config Gui.DISABLED
                       (Gui.log_text_insert
                          (("开始绘画 - 算法: " +:+ Gui.algorithm_var g) +:+ LF) g))
               (Gui.proc s))
            (<[Gui.next_ident s := Gui.draw_started
                                     (Gui.algorithm_var (Gui.self (Gui.proc s)))]>
               (Gui.threads s))
            (S (Gui.next_ident s))).
Proof.
  intros Hbtn Hpath. destruct s as [[[cfg path algo btn log queue] file] ths next].
  simpl in *. rewrite bool_decide_eq_true_2 by done.
  unfold Gui.handle, Gui.start_drawing, mbind, SE_bind, bind, get; simpl.
  by rewrite Hpath.
Qed.

(** X14. From a state with the start button enabled and an image selected,
    the click, the worker entering the drawer, the drawer ending with any
    outcome and the [finally] clause can happen in this order, and then the
    start button is enabled again, the threads are those there were, the
    configuration, its file and the image are as before, and the log has
    gained the line of the start and the line of the outcome, if any. *)
Theorem complete_run_restores_the_start (eval : Gui.evaluator) (defaults : config)
    (s : Gui.system) (outcome : result unit) :
  Gui.start_btn (Gui.self (Gui.proc s)) = Gui.NORMAL →
  GuiLaws.image_selected (Gui.image_path (Gui.self (Gui.proc s))) →
  Gui.threads s !! Gui.next_ident s = None →
  let n := Gui.next_ident s in
  let g := Gui.self (Gui.proc s) in
  ∃ s', Gui.run eval defaults
          [Gui.ui_click_start; Gui.draw_begin n; Gui.draw_end n outcome; Gui.draw_exit n] s
        = Some s'
        ∧ Gui.start_btn (Gui.self (Gui.proc s')) = Gui.NORMAL
        ∧ Gui.threads s' = Gui.threads s
        ∧ Gui.config_data (Gui.self (Gui.proc s')) = Gui.config_data g
        ∧ Gui.config_file (Gui.proc s') = Gui.config_file (Gui.proc s)
        ∧ Gui.image_path (Gui.self (Gui.proc s')) = Gui.image_path g
        ∧ Gui.log_text (Gui.self (Gui.proc s'))
          = Gui.log_text g
            ++ [("开始绘画 - 算法: " +:+ Gui.algorithm_var g) +:+ LF]
            ++ GuiLaws.run_draw_log outcome.
Proof.
  intros Hbtn Hsel%truthy_image_selected Hfresh n g. subst n g.
  pose proof (click_starts_run eval defaults s Hbtn Hsel) as Hclick.
  destruct s as [[[cfg path algo btn log queue] file] ths next].
  cbn [Gui.run]. rewrite Hclick. simpl in *.
  rewrite lookup_insert_eq; simpl. rewrite lookup_insert_eq; simpl.
  rewrite lookup_insert_eq; simpl.
  eexists. split; [reflexivity|]. simpl.
  split; [done|]. split.
  - rewrite !insert_insert_eq, delete_insert_eq. by apply delete_id.
  - destruct outcome as [[]|[m|m]]; simpl; by rewrite <- ?app_assoc, ?app_nil_r.
Qed.

Lemma complete_run_restores_the_start_witness :
  let s := Gui.after Gui.eval_on_samples Config.CONFIG
             [Gui.ui_open_file "pic/cup.png" (Return tt) (Return tt)] (Gui.initial Config.CONFIG) in
  ∃ s', Gui.run Gui.eval_on_samples Config.CONFIG
          [Gui.ui_click_start; Gui.draw_begin 1;
           Gui.draw_end 1 (Raise (Exception "FailSafeException")); Gui.draw_exit 1] s
        = Some s'
        ∧ Gui.start_btn (Gui.self (Gui.proc s')) = Gui.NORMAL.
Proof.
  intros s.
  destruct (complete_run_restores_the_start Gui.eval_on_samples Config.CONFIG s
              (Raise (Exception "FailSafeException")))
    as (s' & Hrun & Hbtn & _).
  - reflexivity.
  - exists "pic/cup.png". split; [discriminate | reflexivity].
  - reflexivity.
  - exists s'. split; [exact Hrun | exact Hbtn].
Defined.

(** ** Opening a picture *)

(** X15. [open_file] never lets an instance of [Exception] out, and never
    starts a thread. When the dialog is cancelled nothing changes and nothing
    is shown. When the picture cannot be opened (an instance of [Exception])
    the selected image, the log and the rest of the state are as before and
    one error dialog carries the message. When it can be opened, the path
    becomes the selected image and the log gains one line naming it; if the
    drawing on the canvas then raises an instance of [Exception], the error
    dialog is shown with that message and the path stays selected, the line
    written. *)
Theorem open_file_outcomes (file_path : string) (opened drawn : result unit)
    (p : Gui.process) :
  let r := (Gui.open_file file_path opened drawn p).1 in
  let p' := (Gui.open_file file_path opened drawn p).2 in
  let selected :=
    Gui.set_self
      (λ g, Gui.log_text_insert (("已打开图片: " +:+ file_path) +:+ LF)
              (Gui.set_image_path (Some file_path) g)) p in
  (∀ e, r = Raise e → isinstance_Exception e = false)
  ∧ (∀ rs t, r = Return rs → Gui.Thread_start t ∉ rs)
  ∧ (file_path = "" → r = Return [] ∧ p' = p)
  ∧ (file_path ≠ "" → ∀ e, opened = Raise e → isinstance_Exception e = true →
       r = Return [Gui.showerror "打开失败" ("无法打开图片: " +:+ str_exn e)] ∧ p' = p)
  ∧ (file_path ≠ "" → opened = Return tt → drawn = Return tt →
       r = Return [] ∧ p' = selected)
  ∧ (file_path ≠ "" → opened = Return tt →
       ∀ e, drawn = Raise e → isinstance_Exception e = true →
       r = Return [Gui.showerror "打开失败" ("无法打开图片: " +:+ str_exn e)]
       ∧ p' = selected).
Proof.
  destruct p as [[cfg path algo btn log queue] file].
  unfold Gui.open_file, try_except_Exception, mbind, SE_bind, bind.
  split; [|split; [|split; [|split; [|split]]]].
  - intros e. case_bool_decide; [done|].
    destruct opened as [[]|[m|m]]; simpl; try done; [|by intros [= <-]].
    destruct drawn as [[]|[m|m]]; simpl; try done. by intros [= <-].
  - intros rs t. case_bool_decide; [intros [= <-]; apply not_elem_of_nil|].
    destruct opened as [[]|[m|m]]; simpl;
      [destruct drawn as [[]|[m|m]]; simpl| |];
      intros [= <-]; rewrite ?list_elem_of_singleton;
      (apply not_elem_of_nil || discriminate).
  - intros ->. by rewrite bool_decide_eq_true_2.
  - intros Hne e -> He. rewrite bool_decide_eq_false_2 by done. simpl.
    by rewrite He.
  - intros Hne -> ->. by rewrite bool_decide_eq_false_2.
  - intros Hne -> e -> He. rewrite bool_decide_eq_false_2 by done. simpl.
    by rewrite He.
Qed.

Lemma open_file_outcomes_witness :
  let p := Gui.__init__ Editor.jitter_only in
  (Gui.open_file "pic/none.png" (Raise (Exception "FileNotFoundError")) (Return tt) p).2
  = p
  ∧ Gui.image_path
      (Gui.self (Gui.open_file "pic/cut.png" (Return tt)
                   (Raise (Exception "OSError")) p).2)
    = Some "pic/cut.png".
Proof.
  intros p. split.
  - destruct (open_file_outcomes "pic/none.png" (Raise (Exception "FileNotFoundError"))
                (Return tt) p) as (_ & _ & _ & Hfail & _).
    by destruct (Hfail ltac:(discriminate) (Exception "FileNotFoundError")
                   eq_refl eq_refl).
  - destruct (open_file_outcomes "pic/cut.png" (Return tt)
                (Raise (Exception "OSError")) p) as (_ & _ & _ & _ & _ & Hdraw).
    destruct (Hdraw ltac:(discriminate) eq_refl (Exception "OSError") eq_refl eq_refl)
      as [_ ->].
    reflexivity.
Defined.

(** ** The thread of a drawing run *)

(** What the main loop handles leaves the threads there are where they
    are. *)
Lemma main_loop_keeps_thread (eval : Gui.evaluator) (defaults : config)
    (e : Gui.event) (s s' : Gui.system) (t : nat) (pc : Gui.thread_pc) :
  Gui.thread_of e = Gui.MainThread → Gui.one_run s →
  Gui.step eval defaults e s = Some s' → Gui.threads s !! t = Some pc →
  Gui.threads s' !! t = Some pc.
Proof.
  intros Hmain (_ & Hid & _) Hstep Hl.
  assert (t ≠ Gui.next_ident s) as Hne by (apply Hid in Hl; lia).
  assert (Gui.threads s !! Gui.MainThread = None) as Hnone.
  { destruct (Gui.threads s !! Gui.MainThread) as [pc0|] eqn:Hl0; [|done].
    apply Hid in Hl0. unfold Gui.MainThread in Hl0. lia. }
  destruct e as [file_path opened drawn|algo| | |es|confirmed| | |t0|t0 outcome|t0|t0 captured|t0];
    simpl in Hstep, Hmain; try (subst t0; by rewrite Hnone in Hstep).
  - injection Hstep as <-. by rewrite (proj1 (threads_handle_open_file _ _ _ _)).
  - case_bool_decide; [|done]. by injection Hstep as <-.
  - case_bool_decide; [|done]. injection Hstep as <-.
    destruct s as [[g file] ths next]; simpl in *.
    unfold Gui.handle, Gui.start_drawing, mbind, SE_bind, bind, get; simpl.
    destruct (Gui.truthy (Gui.image_path g)); simpl; [|done].
    by rewrite lookup_insert_ne.
  - injection Hstep as <-. by rewrite threads_handle_unit.
  - injection Hstep as <-. by rewrite threads_handle_unit.
  - injection Hstep as <-. destruct confirmed; simpl; [|done].
    by rewrite lookup_insert_ne.
  - injection Hstep as <-. simpl. by rewrite lookup_insert_ne.
  - injection Hstep as <-. by rewrite threads_handle_unit.
Qed.

(** C5. [start_drawing] runs on the main thread and does not run a drawer:
    with the start button enabled and an image selected it returns, having
    written the start line and disabled the button, with the one request to
    start a thread on [run_draw]; the thread started is not the main thread.
    What [run_draw] does, for either drawer and whatever the drawer's
    outcome, is then done by the events of that thread; while the drawer is
    at work the main loop can handle its other events, and whatever it
    handles leaves that thread inside the drawer. In every state the
    process can reach, an event during which a drawer is at work (the run of
    either drawer begins or ends) happens on a thread that [start_drawing]
    started, never on the main thread, and the thread that is inside a
    drawer, the edge one or the scanline one, is not the main thread. *)
Theorem drawing_runs_off_the_main_thread (eval : Gui.evaluator)
    (defaults file : config) (s : Gui.system) :
  Gui.reachable eval defaults file s →
  (∀ e s', Gui.step eval defaults e s = Some s' → Gui.runs_drawer e = true →
           Gui.thread_of e ≠ Gui.MainThread ∧ Gui.drawing s (Gui.thread_of e))
  ∧ (∀ t d cfg path, Gui.threads s !! t = Some (Gui.draw_running d cfg path) →
                     t ≠ Gui.MainThread)
  ∧ (∀ t algo s', Gui.threads s !! t = Some (Gui.draw_started algo) →
       Gui.step eval defaults (Gui.draw_begin t) s = Some s' →
       Gui.threads s' !! t
       = Some (Gui.draw_running
                 (if bool_decide (algo = "边缘") then Gui.AutoDrawerCanny
                  else Gui.AutoDrawerScan)
                 (Gui.config_data (Gui.self (Gui.proc s)))
                 (Gui.image_path (Gui.self (Gui.proc s)))))
  ∧ (Gui.start_btn (Gui.self (Gui.proc s)) = Gui.NORMAL →
     GuiLaws.image_selected (Gui.image_path (Gui.self (Gui.proc s))) →
     ∀ outcome : result unit,
     let n := Gui.next_ident s in
     let g := Gui.self (Gui.proc s) in
     let algo := Gui.algorithm_var g in
     ∃ s1 s2 s3 s4,
       Gui.thread_of Gui.ui_click_start = Gui.MainThread
       ∧ Gui.step eval defaults Gui.ui_click_start s = Some s1
       ∧ Gui.start_drawing (Gui.proc s)
         = (Return [Gui.Thread_start (Gui.run_draw_target algo)], Gui.proc s1)
       ∧ Gui.log_text (Gui.self (Gui.proc s1))
         = Gui.log_text g ++ [("开始绘画 - 算法: " +:+ algo) +:+ LF]
       ∧ Gui.threads s1 = <[n := Gui.draw_started algo]> (Gui.threads s)
       ∧ n ≠ Gui.MainThread
       ∧ Gui.thread_of (Gui.draw_begin n) = n
       ∧ Gui.step eval defaults (Gui.draw_begin n) s1 = Some s2
       ∧ Gui.threads s2 !! n
         = Some (Gui.draw_running (Gui.choose_drawer algo) (Gui.config_data g)
                                  (Gui.image_path g))
       ∧ Gui.proc s2 = Gui.proc s1
       ∧ is_Some (Gui.step eval defaults Gui.ui_refresh s2)
       ∧ is_Some (Gui.step eval defaults Gui.ui_after s2)
       ∧ is_Some (Gui.step eval defaults Gui.ui_reselect s2)
       ∧ (∀ es, is_Some (Gui.step eval defaults (Gui.ui_save_config es) s2))
       ∧ (∀ file_path opened drawn,
            is_Some (Gui.step eval defaults (Gui.ui_open_file file_path opened drawn) s2))
       ∧ (∀ e s', Gui.thread_of e = Gui.MainThread →
            Gui.step eval defaults e s2 = Some s' →
            Gui.threads s' !! n
            = Some (Gui.draw_running (Gui.choose_drawer algo) (Gui.config_data g)
                                     (Gui.image_path g)))
       ∧ Gui.step eval defaults (Gui.draw_end n outcome) s2 = Some s3
       ∧ Gui.step eval defaults (Gui.draw_exit n) s3 = Some s4
       ∧ Gui.proc s4 = (Gui.run_draw algo (λ _ _ _, outcome) (Gui.proc s1)).2
       ∧ Gui.threads s4 = Gui.threads s).
Proof.
  intros Hreach.
  pose proof (one_run_reachable eval defaults file s Hreach) as Hinv.
  pose proof (fresh_ident s Hinv) as Hfresh.
  destruct Hinv as (Hpos & Hid & _ & _).
  assert (∀ t pc, Gui.threads s !! t = Some pc → t ≠ Gui.MainThread) as Hoff.
  { intros t pc Hl%Hid. unfold Gui.MainThread. lia. }
  split; [|split; [|split]].
  - intros e s' Hstep Hruns. destruct e; try done; simpl in *.
    + destruct (Gui.threads s !! t) as [[algo| | | |]|] eqn:Hl; try done.
      split; [by apply (Hoff t (Gui.draw_started algo))|].
      by exists (Gui.draw_started algo).
    + destruct (Gui.threads s !! t) as [[|d cfg path| | |]|] eqn:Hl; try done.
      split; [by apply (Hoff t (Gui.draw_running d cfg path))|].
      by exists (Gui.draw_running d cfg path).
  - intros t d cfg path Hl. by apply (Hoff t _ Hl).
  - intros t algo s' Hl Hstep. simpl in Hstep. rewrite Hl in Hstep.
    injection Hstep as <-. simpl. by rewrite lookup_insert_eq.
  - intros Hbtn Hsel%truthy_image_selected outcome n g algo. subst n g algo.
    pose proof (click_starts_run eval defaults s Hbtn Hsel) as Hclick.
    set (s1 := Gui.System
                 (Gui.set_self
                    (λ g, Gui.start_btn_config Gui.DISABLED
                            (Gui.log_text_insert
                               (("开始绘画 - 算法: " +:+ Gui.algorithm_var g) +:+ LF) g))
                    (Gui.proc s))
                 (<[Gui.next_ident s
                    := Gui.draw_started (Gui.algorithm_var (Gui.self (Gui.proc s)))]>
                    (Gui.threads s))
                 (S (Gui.next_ident s))) in *.
    set (s2 := Gui.in_thread (Gui.next_ident s) (ret tt)
                 (Some (Gui.draw_running
                          (Gui.choose_drawer (Gui.algorithm_var (Gui.self (Gui.proc s))))
                          (Gui.config_data (Gui.self (Gui.proc s)))
                          (Gui.image_path (Gui.self (Gui.proc s))))) s1).
    set (s3 := Gui.in_thread (Gui.next_ident s) (Gui.run_draw_leave outcome)
                 (Some Gui.draw_finally) s2).
    set (s4 := Gui.in_thread (Gui.next_ident s) Gui.run_draw_finally None s3).
    exists s1, s2, s3, s4.
    assert (Gui.threads s2 !! Gui.next_ident s
            = Some (Gui.draw_running
                      (Gui.choose_drawer (Gui.algorithm_var (Gui.self (Gui.proc s))))
                      (Gui.config_data (Gui.self (Gui.proc s)))
                      (Gui.image_path (Gui.self (Gui.proc s))))) as Hl2
      by (subst s2; simpl; apply lookup_insert_eq).
    assert (Gui.threads s3 !! Gui.next_ident s = Some Gui.draw_finally) as Hl3
      by (subst s3; simpl; apply lookup_insert_eq).
    assert (Gui.step eval defaults (Gui.draw_begin (Gui.next_ident s)) s1 = Some s2)
      as Hbegin.
    { subst s2 s1. cbn [Gui.step Gui.threads]. rewrite lookup_insert_eq.
      by destruct s as [[[cfg path algo btn log queue] file0] ths next]. }
    assert (Gui.one_run s2) as Hinv2.
    { apply (one_run_reachable eval defaults file).
      eapply Gui.reachable_step; [|exact Hbegin].
      eapply Gui.reachable_step; [exact Hreach | exact Hclick]. }
    split; [reflexivity|]. split; [exact Hclick|].
    split.
    { subst s1. destruct s as [[[cfg path algo btn log queue] file0] ths next].
      simpl in *. unfold Gui.start_drawing, mbind, SE_bind, bind, get; simpl.
      by rewrite Hsel. }
    split; [by destruct s as [[[cfg path algo btn log queue] file0] ths next]|].
    split; [reflexivity|].
    split; [unfold Gui.MainThread; lia|]. split; [reflexivity|].
    split; [exact Hbegin|].
    split; [exact Hl2|]. split; [reflexivity|].
    split; [by eexists|]. split; [by eexists|]. split; [by eexists|].
    split; [by eexists|]. split; [by eexists|].
    split.
    { intros e s' Hmain Hstep.
      exact (main_loop_keeps_thread eval defaults e s2 s' _ _ Hmain Hinv2 Hstep Hl2). }
    split; [cbn [Gui.step]; by rewrite Hl2|].
    split; [cbn [Gui.step]; by rewrite Hl3|].
    split.
    + subst s4 s3 s2 s1.
      destruct s as [[[cfg path algo btn log queue] file0] ths next].
      destruct outcome as [[]|[m|m]]; reflexivity.
    + subst s4 s3 s2 s1. cbn [Gui.in_thread Gui.threads].
      rewrite !insert_insert_eq, delete_insert_eq. by apply delete_id.
Qed.

Lemma drawing_runs_off_the_main_thread_witness :
  let s := Gui.after Gui.eval_on_samples Config.CONFIG
             [ Gui.ui_open_file "pic/cup.png" (Return tt) (Return tt);
               Gui.ui_select_algorithm "扫描线" ]
             (Gui.initial Config.CONFIG) in
  ∃ s1 s2,
    Gui.step Gui.eval_on_samples Config.CONFIG Gui.ui_click_start s = Some s1
    ∧ Gui.start_drawing (Gui.proc s)
      = (Return [Gui.Thread_start (Gui.run_draw_target "扫描线")], Gui.proc s1)
    ∧ 1%nat ≠ Gui.MainThread
    ∧ Gui.step Gui.eval_on_samples Config.CONFIG (Gui.draw_begin 1%nat) s1 = Some s2
    ∧ Gui.threads s2 !! 1%nat
      = Some (Gui.draw_running Gui.AutoDrawerScan Config.CONFIG (Some "pic/cup.png")).
Proof.
  intros s.
  destruct (drawing_runs_off_the_main_thread Gui.eval_on_samples Config.CONFIG
              Config.CONFIG s) as (_ & _ & _ & Hrun).
  - apply (run_reachable _ _ _
             [ Gui.ui_open_file "pic/cup.png" (Return tt) (Return tt);
               Gui.ui_select_algorithm "扫描线" ] (Gui.initial Config.CONFIG));
      [apply Gui.reachable_initial|].
    apply run_after. apply (bool_decide_unpack _). vm_compute. exact I.
  - assert (GuiLaws.image_selected (Gui.image_path (Gui.self (Gui.proc s)))) as Hsel
      by (exists "pic/cup.png"; split; [discriminate | reflexivity]).
    destruct (Hrun eq_refl Hsel (Raise (Exception "FailSafeException")))
      as (s1 & s2 & s3 & s4 & _ & Hclick & Hhandler & _ & _ & Hoff & _ & Hbegin
          & Hin & _).
    exists s1, s2.
    split; [exact Hclick|]. split; [exact Hhandler|]. split; [exact Hoff|].
    split; [exact Hbegin|]. exact Hin.
Defined.
